(** * PYP-Imagesextractor: text clean-up and regex field extraction

    A shallow embedding of [script.py] and [script2.py]: the OCR text
    clean-up of [extract_text_from_image], the regular-expression field
    extractors [extract_data]/[find_first_match] and [extract_clean_data],
    and the per-image loop of the two [__main__] blocks.

    Python strings are lists of Unicode code points.  The part of the [re]
    module that the scripts rely on is embedded as a backtracking matcher
    over the syntax their patterns use. *)

From Stdlib Require Import String Ascii List NArith ZArith Arith Bool Lia.
From Stdlib Require Import Permutation Sorted.
Import ListNotations.

Set Implicit Arguments.

(** ** Characters and text *)

Definition char := N.
Definition text := list char.

Definition ch (a : ascii) : char := N_of_ascii a.
Arguments ch a%_char.

Definition of_string (s : string) : text := map N_of_ascii (list_ascii_of_string s).
Arguments of_string s%_string.

Definition text_eqb (a b : text) : bool :=
  if list_eq_dec N.eq_dec a b then true else false.

(** [str.isspace], which is also what [\s] tests on a [str] pattern. *)
Definition is_space (c : char) : bool :=
  ((9 <=? c) && (c <=? 13) || (28 <=? c) && (c <=? 32)
   || (c =? 133) || (c =? 160) || (c =? 5760)
   || (8192 <=? c) && (c <=? 8202)
   || (c =? 8232) || (c =? 8233) || (c =? 8239) || (c =? 8287)
   || (c =? 12288))%N.

Definition is_7bit (c : char) : bool := (c <? 128)%N.

Definition between (lo hi c : char) : bool := ((lo <=? c) && (c <=? hi))%N.
Arguments between (lo hi c)%_N.

Definition ascii_lower (c : char) : char :=
  if between 65 90 c then (c + 32)%N else c.
Definition ascii_upper (c : char) : char :=
  if between 97 122 c then (c - 32)%N else c.
Definition ascii_digit (c : char) : bool := between 48 57 c.
Definition ascii_word (c : char) : bool :=
  between 48 57 c || between 65 90 c || between 97 122 c || (c =? 95)%N.

(** The interpreter's Unicode tables are not part of the repository; they
    are only consulted for code points above 127.  [uni_lower] is the key
    under which [re.IGNORECASE] compares such a code point. *)
Record unicode_db : Type := {
  uni_lower : char -> char;
  uni_upper : char -> char;
  uni_alnum : char -> bool;
  uni_decimal : char -> bool
}.

(** Tables that classify nothing above 127; enough for 7-bit text, where
    the tables are never consulted. *)
Definition plain_db : unicode_db :=
  {| uni_lower := fun c => c; uni_upper := fun c => c;
     uni_alnum := fun _ => false; uni_decimal := fun _ => false |}.

(** ** Exceptions *)

Inductive exn : Type := AttributeError | IndexError | KeyError | ValueError.

Inductive result (A : Type) : Type :=
| Ok (a : A)
| Raise (e : exn).
Arguments Ok {A} a.
Arguments Raise {A} e.

Definition bind {A B} (m : result A) (f : A -> result B) : result B :=
  match m with
  | Ok a => f a
  | Raise e => Raise e
  end.

Notation "x <- m ;; k" := (bind m (fun x => k))
  (at level 61, m at next level, right associativity).

(** ** The regular expressions of the scripts *)

Inductive cset : Type :=
| CAny                          (* .   : anything but a newline *)
| CLit (c : char)               (* a literal character *)
| CRange (lo hi : char)         (* lo-hi inside [ ] *)
| CSpace                        (* \s *)
| CDigit                        (* \d *)
| CWord                         (* \w *)
| COr (a b : cset)              (* juxtaposition inside [ ] *)
| CNot (a : cset).              (* [^ ] *)

Inductive regex : Type :=
| Eps
| Chr (cs : cset)
| Cat (r1 r2 : regex)
| Alt (r1 r2 : regex)                       (* r1|r2 *)
| Opt (r : regex)                           (* (?:r)? *)
| Rep (cs : cset) (lo : nat) (hi : option nat)  (* x*, x+, x?, x{lo,hi} on a one-character x *)
| Grp (n : nat) (r : regex)                 (* the n-th capturing group *)
| Eos.                                      (* $ *)

Fixpoint ngroups (r : regex) : nat :=
  match r with
  | Cat a b | Alt a b => ngroups a + ngroups b
  | Opt a => ngroups a
  | Grp _ a => S (ngroups a)
  | _ => 0
  end.

Definition captures := list (nat * text).

Fixpoint group (n : nat) (g : captures) : option text :=
  match g with
  | [] => None
  | (m, t) :: g' => if Nat.eqb m n then Some t else group n g'
  end.

Section Matcher.

Variable u : unicode_db.
(** [re.IGNORECASE] *)
Variable icase : bool.

Definition lower (c : char) : char :=
  if is_7bit c then ascii_lower c else uni_lower u c.
Definition upper (c : char) : char :=
  if is_7bit c then ascii_upper c else uni_upper u c.
Definition is_digit (c : char) : bool :=
  if is_7bit c then ascii_digit c else uni_decimal u c.
Definition is_word (c : char) : bool :=
  if is_7bit c then ascii_word c else uni_alnum u c.

Fixpoint in_cset (cs : cset) (c : char) : bool :=
  match cs with
  | CAny => negb (c =? 10)%N
  | CLit l => if icase then (lower c =? lower l)%N else (c =? l)%N
  | CRange lo hi =>
      between lo hi c
      || (icase && (between lo hi (lower c) || between lo hi (upper c)))
  | CSpace => is_space c
  | CDigit => is_digit c
  | CWord => is_word c
  | COr a b => in_cset a c || in_cset b c
  | CNot a => negb (in_cset a c)
  end.

Section Backtracking.

Variable A : Type.

Definition more (hi : option nat) : bool :=
  match hi with
  | Some 0 => false
  | _ => true
  end.

(** Greedy repetition of a one-character item: as many as possible
    first, giving one back at a time while the rest fails. *)
Definition rep_stop (lo : nat) (s : text) (k : text -> option A) : option A :=
  match lo with
  | 0 => k s
  | S _ => None
  end.

Fixpoint rep (p : char -> bool) (lo : nat) (hi : option nat) (s : text)
         (k : text -> option A) : option A :=
  match s with
  | c :: s' =>
      if p c && more hi then
        match rep p (pred lo) (option_map pred hi) s' k with
        | Some a => Some a
        | None => rep_stop lo s k
        end
      else rep_stop lo s k
  | [] => rep_stop lo s k
  end.

Fixpoint rx (r : regex) (s : text) (g : captures)
         (k : text -> captures -> option A) : option A :=
  match r with
  | Eps => k s g
  | Chr cs =>
      match s with
      | c :: s' => if in_cset cs c then k s' g else None
      | [] => None
      end
  | Cat r1 r2 => rx r1 s g (fun s1 g1 => rx r2 s1 g1 k)
  | Alt r1 r2 =>
      match rx r1 s g k with
      | Some a => Some a
      | None => rx r2 s g k
      end
  | Opt r1 =>
      match rx r1 s g k with
      | Some a => Some a
      | None => k s g
      end
  | Rep cs lo hi => rep (in_cset cs) lo hi s (fun s' => k s' g)
  | Grp n r1 =>
      rx r1 s g
         (fun s1 g1 => k s1 ((n, firstn (length s - length s1) s) :: g1))
  | Eos =>
      match s with
      | [] => k s g
      | [c] => if (c =? 10)%N then k s g else None
      | _ => None
      end
  end.

End Backtracking.

(** One attempt at the current position: the text left after the match
    and the groups.  [must_advance] refuses an empty match. *)
Definition match_at (r : regex) (must_advance : bool) (s : text)
  : option (text * captures) :=
  rx r s []
     (fun s' g =>
        if must_advance && (length s' =? length s) then None
        else Some (s', g)).

(** A match: the matched text and its groups. *)
Definition hit : Type := (text * captures)%type.

Definition hit_of (s : text) (m : text * captures) : hit :=
  (firstn (length s - length (fst m)) s, snd m).

(** [re.search]: the leftmost match. *)
Fixpoint search (r : regex) (s : text) : option hit :=
  match match_at r false s with
  | Some m => Some (hit_of s m)
  | None =>
      match s with
      | [] => None
      | _ :: s' => search r s'
      end
  end.

(** The scan shared by [re.findall] and [re.sub]: the non-overlapping
    matches from left to right and the characters between them.  After
    an empty match the next attempt at the same place must advance. *)
Inductive event : Type :=
| Copy (c : char)
| Hit (m : hit).

Fixpoint scan (r : regex) (s : text) (skip : nat) : list event :=
  let onward n :=
    match s with
    | [] => []
    | _ :: s' => scan r s' n
    end in
  let step (_ : unit) :=
    match s with
    | [] => []
    | c :: s' => Copy c :: scan r s' 0
    end in
  match skip with
  | S n => onward n
  | 0 =>
      match match_at r false s with
      | None => step tt
      | Some m =>
          match length s - length (fst m) with
          | S n => Hit (hit_of s m) :: onward n
          | 0 =>
              Hit (hit_of s m) ::
              match match_at r true s with
              | Some m2 =>
                  Hit (hit_of s m2) :: onward (length s - length (fst m2) - 1)
              | None => step tt
              end
          end
      end
  end.

Inductive item : Type :=
| IStr (t : text)
| ITuple (ts : list text).

Definition group_text (n : nat) (g : captures) : text :=
  match group n g with
  | Some t => t
  | None => []
  end.

(** What [findall] reports for a match: the whole match when the pattern
    has no group, the group when it has one, a tuple otherwise. *)
Definition item_of (r : regex) (m : hit) : item :=
  match ngroups r with
  | 0 => IStr (fst m)
  | 1 => IStr (group_text 1 (snd m))
  | n => ITuple (map (fun i => group_text i (snd m)) (seq 1 n))
  end.

Fixpoint hits (es : list event) : list hit :=
  match es with
  | [] => []
  | Copy _ :: es' => hits es'
  | Hit m :: es' => m :: hits es'
  end.

Definition findall (r : regex) (s : text) : list item :=
  map (item_of r) (hits (scan r s 0)).

Fixpoint render (repl : text) (es : list event) : text :=
  match es with
  | [] => []
  | Copy c :: es' => c :: render repl es'
  | Hit _ :: es' => repl ++ render repl es'
  end.

(** [re.sub] with a replacement that has no group reference. *)
Definition sub (r : regex) (repl : text) (s : text) : text :=
  render repl (scan r s 0).

End Matcher.

(** ** Writing patterns *)

Fixpoint lit_chars (l : list ascii) : regex :=
  match l with
  | [] => Eps
  | [a] => Chr (CLit (N_of_ascii a))
  | a :: l' => Cat (Chr (CLit (N_of_ascii a))) (lit_chars l')
  end.

Definition lit (s : string) : regex := lit_chars (list_ascii_of_string s).
Arguments lit s%_string.

Fixpoint cat (rs : list regex) : regex :=
  match rs with
  | [] => Eps
  | [r] => r
  | r :: rs' => Cat r (cat rs')
  end.

Fixpoint alt (rs : list regex) : regex :=
  match rs with
  | [] => Eps
  | [r] => r
  | r :: rs' => Alt r (alt rs')
  end.

Definition star (cs : cset) : regex := Rep cs 0 None.
Definition plus (cs : cset) : regex := Rep cs 1 None.
Definition maybe (cs : cset) : regex := Rep cs 0 (Some 1).

Fixpoint one_of (l : list ascii) : cset :=
  match l with
  | [] => CNot (COr CAny (CLit 10%N))
  | [a] => CLit (N_of_ascii a)
  | a :: l' => COr (CLit (N_of_ascii a)) (one_of l')
  end.

(** [[...]] over literal characters. *)
Definition chars (s : string) : cset := one_of (list_ascii_of_string s).
Arguments chars s%_string.

(** ** String methods *)

(** [str.lstrip()], [str.rstrip()] and [str.strip()] with no argument. *)
Fixpoint lstrip (s : text) : text :=
  match s with
  | c :: s' => if is_space c then lstrip s' else s
  | [] => []
  end.

Fixpoint rstrip (s : text) : text :=
  match s with
  | [] => []
  | c :: s' =>
      match rstrip s' with
      | [] => if is_space c then [] else [c]
      | kept => c :: kept
      end
  end.

Definition strip (s : text) : text := rstrip (lstrip s).

(** [s.split('\n')[0]] *)
Fixpoint first_line (s : text) : text :=
  match s with
  | [] => []
  | c :: s' => if (c =? 10)%N then [] else c :: first_line s'
  end.

(** [s.replace(',', '')] *)
Definition remove_commas (s : text) : text :=
  filter (fun c => negb (c =? 44)%N) s.

(** ** script.py *)

Module Script.

(** *** The clean-up of [extract_text_from_image] (lines 53-54) *)

(** [[^\x00-\x7F]+] *)
Definition non_ascii_run : regex := plus (CNot (CRange 0%N 127%N)).
(** [\s+] *)
Definition space_run : regex := plus CSpace.

Definition normalize (u : unicode_db) (raw : text) : text :=
  let t := sub u false non_ascii_run (of_string " ") raw in
  strip (sub u false space_run (of_string " ") t).

(** *** The patterns of [extract_data] *)

(** [\s*[:\-]?\s*] *)
Definition sep : list regex :=
  [star CSpace; maybe (chars ":-"); star CSpace].

Definition sender_patterns : list regex :=
  [ cat ([ alt [ lit "From"; lit "Sender"; lit "Funding Source";
                 cat [lit "Source Acc"; maybe (chars "."); lit " Title"];
                 lit "Paid by"; lit "Payer" ] ]
         ++ sep ++ [ Grp 1 (star CAny) ]) ].

Definition receiver_patterns : list regex :=
  [ cat ([ alt [ lit "To"; lit "Receiver"; lit "Sent to"; lit "Beneficiary";
                 lit "Payee";
                 cat [lit "Destination Acc"; maybe (chars "."); lit " Title"] ] ]
         ++ sep ++ [ Grp 1 (star CAny) ]) ].

Definition digits : cset := CRange (ch "0") (ch "9").

(** [(?:Rs\.?|PKR)] *)
Definition currency : regex :=
  alt [ cat [lit "Rs"; maybe (chars ".")]; lit "PKR" ].

(** the group around [[0-9,]+\.?[0-9]*] *)
Definition number : regex :=
  Grp 1 (cat [ plus (COr digits (chars ",")); maybe (chars "."); star digits ]).

Definition amount_patterns : list regex :=
  [ cat [ currency; star CSpace; maybe (chars ".:"); star CSpace; number ];
    cat ([ alt [lit "Amount Sent"; lit "Total Amount"; lit "Amount"] ]
         ++ sep ++ [ Opt currency; star CSpace; number ]) ].

Definition bank_patterns : list regex :=
  [ alt [ lit "Silk Bank";
          cat [lit "Easypaisa Bank"; maybe (chars "-"); star CDigit];
          lit "NayaPay";
          cat [star CAny; Rep (chars "*") 4 None; Rep CDigit 3 (Some 4)];
          Rep digits 9 (Some 14) ];
    cat ([ alt [ cat [lit "Bank"; star CSpace; lit "Account"];
                 cat [lit "Acct"; star CSpace; lit "No"; maybe (chars ".")];
                 lit "Account" ] ]
         ++ sep ++ [ Grp 1 (plus (COr CWord (chars "-*"))) ]) ].

(** the group around [[\w\d\-]+] *)
Definition token : regex := Grp 1 (plus (COr CWord (COr CDigit (chars "-")))).

Definition transaction_id_patterns : list regex :=
  [ cat ([ alt [ lit "Transaction ID";
                 cat [lit "Trans"; maybe (chars "."); lit " ID"];
                 lit "Tx ID"; lit "Ref#"; lit "Reference"; lit "Ref" ] ]
         ++ sep ++ [ token ]) ].

Definition reference_patterns : list regex :=
  [ cat ([ alt [ lit "Ref"; lit "Ref#"; lit "Reference" ] ]
         ++ sep ++ [ token ]) ].

Definition status_patterns : list regex :=
  [ Grp 1 (alt [ lit "Transaction Successful"; lit "Transaction successful";
                 lit "Money has been sent"; lit "Successfully Sent" ]) ].

Definition override_sender_pattern : regex :=
  cat ([ lit "by" ] ++ sep ++ [ Grp 1 (star CAny) ]).

(** [[.,:;]+$] *)
Definition trailing_punctuation : regex := Cat (plus (chars ".,:;")) Eos.

(** *** [find_first_match] *)

(** [matches[0].strip()] and the two lines after it. *)
Definition clean (u : unicode_db) (m0 : item) : result text :=
  match m0 with
  | IStr raw =>
      let raw_value := strip raw in
      let value := strip (first_line raw_value) in
      Ok (sub u false trailing_punctuation [] value)
  | ITuple _ => Raise AttributeError
  end.

Fixpoint find_first_match (u : unicode_db) (t : text) (patterns : list regex)
  : result (option text) :=
  match patterns with
  | [] => Ok None
  | pat :: patterns' =>
      match findall u true pat t with
      | m0 :: _ => value <- clean u m0 ;; Ok (Some value)
      | [] => find_first_match u t patterns'
      end
  end.

(** *** The record *)

Definition dict := list (string * option text).

Fixpoint dict_set (k : string) (v : option text) (d : dict) : dict :=
  match d with
  | [] => [(k, v)]
  | (k', v') :: d' =>
      if String.eqb k' k then (k, v) :: d' else (k', v') :: dict_set k v d'
  end.

Fixpoint dict_get (k : string) (d : dict) : option (option text) :=
  match d with
  | [] => None
  | (k', v') :: d' => if String.eqb k' k then Some v' else dict_get k d'
  end.

Definition keys (d : dict) : list string := map fst d.

(** [not v] for a value that is [None] or a string. *)
Definition falsy (v : option text) : bool :=
  match v with
  | None | Some [] => true
  | Some (_ :: _) => false
  end.

Definition empty_record : dict :=
  [ ("Sender", None); ("Receiver", None); ("Amount", None);
    ("Bank_Details", None); ("Transaction_ID", None);
    ("Reference_Number", None); ("Transaction_Status", None) ]%string.

(** *** [extract_data] *)

Definition extract_data (u : unicode_db) (t : text) : result dict :=
  let data := empty_record in
  v <- find_first_match u t sender_patterns ;;
  let data := dict_set "Sender" v data in
  v <- find_first_match u t receiver_patterns ;;
  let data := dict_set "Receiver" v data in
  v <- find_first_match u t amount_patterns ;;
  let data := dict_set "Amount" v data in
  v <- find_first_match u t bank_patterns ;;
  let data := dict_set "Bank_Details" v data in
  v <- find_first_match u t transaction_id_patterns ;;
  let data := dict_set "Transaction_ID" v data in
  v <- find_first_match u t reference_patterns ;;
  let data := dict_set "Reference_Number" v data in
  v <- find_first_match u t status_patterns ;;
  let data := dict_set "Transaction_Status" v data in
  match dict_get "Sender" data with
  | None => Raise KeyError
  | Some sender =>
      if falsy sender then
        v <- find_first_match u t [override_sender_pattern] ;;
        Ok (dict_set "Sender" v data)
      else Ok data
  end.

End Script.

(** ** script2.py *)

Module Script2.

Import Script.

(** [m.group(1)] of a match object. *)
Definition group1 (pat : regex) (m : hit) : result (option text) :=
  if ngroups pat =? 0 then Raise IndexError else Ok (group 1 (snd m)).

(** [v.strip()] where [v] may be [None]. *)
Definition strip_method (v : option text) : result text :=
  match v with
  | Some t => Ok (strip t)
  | None => Raise AttributeError
  end.

Definition replace_method (v : option text) : result text :=
  match v with
  | Some t => Ok (remove_commas t)
  | None => Raise AttributeError
  end.

(** the group around [[\w &]+] *)
Definition name : regex := Grp 1 (plus (COr CWord (chars " &"))).

(** [Source Acc\.?\s*Title\s*] and its group *)
Definition source_title : regex :=
  cat [ lit "Source Acc"; maybe (chars "."); star CSpace; lit "Title";
        star CSpace; name ].

Definition sent_by : regex := cat [ lit "Sent by"; star CSpace; name ].

Definition destination_title : regex :=
  cat [ lit "Destination Acc"; maybe (chars "."); star CSpace; lit "Title";
        star CSpace; name ].

Definition to_pattern : regex := cat [ lit "To"; star CSpace; name ].

(** [(?:Total Amount|Amount)\s*], an optional [Rs\.?\s*], the group around
    [[\d,]+\.\d{2}|[\d,]+] *)
Definition amount_pattern : regex :=
  cat [ alt [lit "Total Amount"; lit "Amount"]; star CSpace;
        Opt (cat [lit "Rs"; maybe (chars "."); star CSpace]);
        Grp 1 (alt [ cat [ plus (COr CDigit (chars ","));
                           Chr (chars "."); Rep CDigit 2 (Some 2) ];
                     plus (COr CDigit (chars ",")) ]) ].

Definition source_bank : regex :=
  cat [ lit "Source Bank"; star CSpace; Grp 1 (plus CWord) ].

Definition destination_bank : regex :=
  cat [ lit "Destination Bank"; star CSpace; Grp 1 (plus CWord) ].

Definition empty_record : dict :=
  [ ("Sender", None); ("Receiver", None); ("Total_Amount", None);
    ("Sender_Bank", None); ("Receiver_Bank", None) ]%string.

(** [data[key] = m.group(1).strip()] *)
Definition store (key : string) (pat : regex) (m : hit) (data : dict)
  : result dict :=
  g <- group1 pat m ;;
  v <- strip_method g ;;
  Ok (dict_set key (Some v) data).

Definition extract_clean_data (u : unicode_db) (t : text) : result dict :=
  let data := empty_record in
  let t := sub u false space_run (of_string " ") t in
  data <-
    match search u true source_title t with
    | Some m => store "Sender" source_title m data
    | None =>
        match search u true sent_by t with
        | Some m => store "Sender" sent_by m data
        | None => Ok data
        end
    end ;;
  data <-
    match search u true destination_title t with
    | Some m => store "Receiver" destination_title m data
    | None =>
        match search u true to_pattern t with
        | Some m => store "Receiver" to_pattern m data
        | None => Ok data
        end
    end ;;
  data <-
    match search u true amount_pattern t with
    | Some m =>
        g <- group1 amount_pattern m ;;
        v <- replace_method g ;;
        Ok (dict_set "Total_Amount" (Some (strip v)) data)
    | None => Ok data
    end ;;
  data <-
    match search u true source_bank t with
    | Some m => store "Sender_Bank" source_bank m data
    | None => Ok data
    end ;;
  match search u true destination_bank t with
  | Some m => store "Receiver_Bank" destination_bank m data
  | None => Ok data
  end.

End Script2.

(** ** The per-image loop of the two [__main__] blocks *)

Section Batch.

Variable u : unicode_db.
Variables path image : Type.
(** [cv2.imread]: [None] when the file cannot be decoded. *)
Variable imread : path -> option image.
(** Grey scale, threshold and morphology of [preprocess_image]. *)
Variable binarize : image -> result image.
(** [pytesseract.image_to_string] *)
Variable image_to_string : image -> result text.
(** [os.path.basename] *)
Variable basename : path -> text.
(** [extract_data] in script.py, [extract_clean_data] in script2.py. *)
Variable extract : unicode_db -> text -> result Script.dict.

Definition preprocess_image (image_path : path) : result image :=
  match imread image_path with
  | None => Raise ValueError
  | Some img => binarize img
  end.

Definition extract_text_from_image (img : image) : result text :=
  raw <- image_to_string img ;;
  Ok (Script.normalize u raw).

Inductive line : Type :=
| Processed (f : path)
| ErrorProcessing (f : path) (e : exn).

(** The body of the [try]. *)
Definition process (img_file : path) : result Script.dict :=
  preprocessed <- preprocess_image img_file ;;
  ocr_text <- extract_text_from_image preprocessed ;;
  parsed <- extract u ocr_text ;;
  Ok (Script.dict_set "Image" (Some (basename img_file)) parsed).

(** The [for] loop over [all_data] and what it prints. *)
Fixpoint process_images (image_files : list path)
         (all_data : list Script.dict) (out : list line)
  : list Script.dict * list line :=
  match image_files with
  | [] => (all_data, out)
  | img_file :: rest =>
      match process img_file with
      | Ok parsed =>
          process_images rest (all_data ++ [parsed]) (out ++ [Processed img_file])
      | Raise e =>
          process_images rest all_data (out ++ [ErrorProcessing img_file e])
      end
  end.

Definition result_table (image_files : list path) : list Script.dict :=
  fst (process_images image_files [] []).

(** The row an image contributes: one when its processing succeeds,
    none when any step raises. *)
Definition rows_of (f : path) : list Script.dict :=
  match process f with
  | Ok parsed => [parsed]
  | Raise _ => []
  end.

Definition line_of (f : path) : line :=
  match process f with
  | Ok _ => Processed f
  | Raise e => ErrorProcessing f e
  end.

(** An image that every collaborator accepts. *)
Definition readable (f : path) : Prop :=
  exists img pre raw,
    imread f = Some img /\ binarize img = Ok pre /\ image_to_string pre = Ok raw.

End Batch.

(** ** The [__main__] blocks around the loop *)

(** A cell of the [DataFrame]: [None] is the NaN of a missing key. *)
Definition cell : Type := option (option text).

(** [pd.DataFrame(all_data, columns=...)] over a list of dicts. *)
Definition data_frame (columns : list string) (all_data : list Script.dict)
  : list (list cell) :=
  map (fun d => map (fun c => Script.dict_get c d) columns) all_data.

Definition script_columns : list string :=
  [ "Image"; "Sender"; "Receiver"; "Amount"; "Bank_Details";
    "Transaction_ID"; "Reference_Number"; "Transaction_Status" ]%string.

Definition script2_columns : list string :=
  [ "Image"; "Sender"; "Receiver"; "Total_Amount"; "Sender_Bank";
    "Receiver_Bank" ]%string.

Section Main.

Variable u : unicode_db.
Variables path image : Type.
Variable imread : path -> option image.
Variable binarize : image -> result image.
Variable image_to_string : image -> result text.
Variable basename : path -> text.
(** [int(os.path.splitext(os.path.basename(x))[0])]: [None] when [int]
    raises [ValueError]. *)
Variable stem_number : path -> option Z.

(** The keys of [sorted(..., key=...)], computed first and in order. *)
Fixpoint keyed (files : list path) : result (list (Z * path)) :=
  match files with
  | [] => Ok []
  | f :: rest =>
      match stem_number f with
      | None => Raise ValueError
      | Some k => kl <- keyed rest ;; Ok ((k, f) :: kl)
      end
  end.

(** The sort is stable: an item goes in front of the first item whose key
    is not smaller. *)
Fixpoint insert_keyed (x : Z * path) (l : list (Z * path)) : list (Z * path) :=
  match l with
  | [] => [x]
  | y :: l' => if (fst x <=? fst y)%Z then x :: l else y :: insert_keyed x l'
  end.

Definition sorted_by_stem (files : list path) : result (list path) :=
  kl <- keyed files ;;
  Ok (map snd (fold_right insert_keyed [] kl)).

(** script.py from the [glob] result to the frame given to [to_excel],
    with what was printed. *)
Definition script_main (globbed : list path)
  : result (list (list cell) * list (line path)) :=
  image_files <- sorted_by_stem globbed ;;
  let r := process_images u imread binarize image_to_string basename
             Script.extract_data image_files [] [] in
  Ok (data_frame script_columns (fst r), snd r).

(** script2.py, which takes the files as [glob] lists them. *)
Definition script2_main (globbed : list path)
  : list (list cell) * list (line path) :=
  let r := process_images u imread binarize image_to_string basename
             Script2.extract_clean_data globbed [] [] in
  (data_frame script2_columns (fst r), snd r).

End Main.

(** ** The contract of the field extractor, in the specification's words

    A registry lists, per field, its rules in priority order and an
    optional override rule.  Each field is the cleaned first match of the
    first rule that finds one in a find-all scan; an unset field takes the
    override rule, and is absent otherwise. *)

Module Contract.

Record field : Type := {
  f_key : string;
  f_rules : list regex;
  f_override : option regex
}.

Definition registry := list field.

Section Extract.

Variable u : unicode_db.
(** value clean-up, per field *)
Variable cleanup : string -> text -> text.
(** when a field counts as still unset *)
Variable unset : option text -> bool.

Definition first_text (pat : regex) (t : text) : option text :=
  match findall u true pat t with
  | IStr v :: _ => Some v
  | _ => None
  end.

Fixpoint first_match (key : string) (rules : list regex) (t : text)
  : option text :=
  match rules with
  | [] => None
  | pat :: rules' =>
      match first_text pat t with
      | Some v => Some (cleanup key v)
      | None => first_match key rules' t
      end
  end.

Definition field_value (f : field) (t : text) : option text :=
  let v := first_match (f_key f) (f_rules f) t in
  match f_override f with
  | Some o => if unset v then first_match (f_key f) [o] t else v
  | None => v
  end.

Definition extract (reg : registry) (t : text) : Script.dict :=
  map (fun f => (f_key f, field_value f t)) reg.

End Extract.

(** Newline truncation, whitespace trim, trailing-punctuation strip. *)
Definition shared_cleanup (u : unicode_db) (_ : string) (v : text) : text :=
  sub u false Script.trailing_punctuation [] (strip (first_line (strip v))).

Definition is_absent (v : option text) : bool :=
  match v with
  | None => true
  | Some _ => false
  end.

Definition broad : registry :=
  [ {| f_key := "Sender"; f_rules := Script.sender_patterns;
       f_override := Some Script.override_sender_pattern |};
    {| f_key := "Receiver"; f_rules := Script.receiver_patterns;
       f_override := None |};
    {| f_key := "Amount"; f_rules := Script.amount_patterns;
       f_override := None |};
    {| f_key := "Bank_Details"; f_rules := Script.bank_patterns;
       f_override := None |};
    {| f_key := "Transaction_ID"; f_rules := Script.transaction_id_patterns;
       f_override := None |};
    {| f_key := "Reference_Number"; f_rules := Script.reference_patterns;
       f_override := None |};
    {| f_key := "Transaction_Status"; f_rules := Script.status_patterns;
       f_override := None |} ]%string.

Definition strict : registry :=
  [ {| f_key := "Sender";
       f_rules := [Script2.source_title; Script2.sent_by];
       f_override := None |};
    {| f_key := "Receiver";
       f_rules := [Script2.destination_title; Script2.to_pattern];
       f_override := None |};
    {| f_key := "Total_Amount"; f_rules := [Script2.amount_pattern];
       f_override := None |};
    {| f_key := "Sender_Bank"; f_rules := [Script2.source_bank];
       f_override := None |};
    {| f_key := "Receiver_Bank"; f_rules := [Script2.destination_bank];
       f_override := None |} ]%string.

(** What script2.py does to a value instead: a whitespace trim, after
    removing the commas of [Total_Amount]. *)
Definition strict_cleanup (key : string) (v : text) : text :=
  if String.eqb key "Total_Amount" then strip (remove_commas v) else strip v.

End Contract.

(** * Vocabulary of the statements *)

(** Length of the longest prefix of [s] inside [p]. *)
Fixpoint run (p : char -> bool) (s : text) : nat :=
  match s with
  | c :: s' => if p c then S (run p s') else 0
  | [] => 0
  end.

(** Every maximal run of [p]-characters replaced by [repl]; [inrun] tells
    that the run under way has been replaced already. *)
Fixpoint squeeze (p : char -> bool) (repl : text) (inrun : bool) (s : text) : text :=
  match s with
  | [] => []
  | c :: s' =>
      if p c then (if inrun then [] else repl) ++ squeeze p repl true s'
      else c :: squeeze p repl false s'
  end.

Definition head_not_space (s : text) : bool :=
  match s with
  | c :: _ => negb (is_space c)
  | [] => true
  end.

(** Every whitespace character of [s] is a blank that follows no other
    whitespace; [after_space] tells that [s] comes right after one. *)
Fixpoint single_spaced (after_space : bool) (s : text) : bool :=
  match s with
  | [] => true
  | c :: s' =>
      if is_space c
      then (c =? 32)%N && negb after_space && single_spaced true s'
      else single_spaced false s'
  end.

(** No two neighbours are both whitespace. *)
Fixpoint no_space_pair (s : text) : bool :=
  match s with
  | a :: s' =>
      match s' with
      | b :: _ => negb (is_space a && is_space b)
      | [] => true
      end && no_space_pair s'
  | [] => true
  end.

Definition seven_bit (s : text) : Prop := Forall (fun c => is_7bit c = true) s.

(** Blank to tilde. *)
Definition printable (c : char) : bool := between 32 126 c.

(** The trim set: full stop, comma, colon, semicolon. *)
Definition is_trim_punct (c : char) : bool :=
  ((c =? 46) || (c =? 44) || (c =? 58) || (c =? 59))%N.

(** [s] without its final run of [p]-characters. *)
Fixpoint drop_trailing (p : char -> bool) (s : text) : text :=
  match s with
  | [] => []
  | c :: s' => if forallb p s then [] else c :: drop_trailing p s'
  end.

Definition ends_outside (p : char -> bool) (s : text) : bool :=
  match rev s with
  | c :: _ => negb (p c)
  | [] => true
  end.

Definition no_newline (s : text) : Prop := ~ In 10%N s.

(** Every match of [r] sets group 1. *)
Fixpoint binds1 (r : regex) : bool :=
  match r with
  | Grp n r1 => (n =? 1) || binds1 r1
  | Cat a b => binds1 a || binds1 b
  | Alt a b => binds1 a && binds1 b
  | _ => false
  end.

Definition bound1 (g : captures) : Prop := group 1 g <> None.

(** What a rule yields: its group when it has one, the whole match when
    it has none. *)
Definition rule_text (pat : regex) (m : hit) : text :=
  match ngroups pat with
  | 0 => fst m
  | _ => group_text 1 (snd m)
  end.

(** [data[key] = v] when a rule matched, [data] as it was otherwise. *)
Definition put (key : string) (v : option text) (data : Script.dict)
  : Script.dict :=
  match v with
  | Some x => Script.dict_set key (Some x) data
  | None => data
  end.

(** The value a run of an extractor holds under [key]: [None] when the
    run raised or the key is missing, [Some None] for Python's [None]. *)
Definition field_of (r : result Script.dict) (key : string)
  : option (option text) :=
  match r with
  | Ok data => Script.dict_get key data
  | Raise _ => None
  end.

Definition example_receipt : text :=
  of_string "From: Alice Khan To: Bob Shah Amount: Rs. 1,250.00 Transaction ID: TXN99123 Transaction Successful".

(** The receipt of the example as OCR reads it, one label per line. *)
Definition receipt_lines : text :=
  of_string "From: Alice Khan" ++ [10%N]
  ++ of_string "To: Bob Shah" ++ [10%N]
  ++ of_string "Amount: Rs. 1,250.00" ++ [10%N]
  ++ of_string "Transaction ID: TXN99123" ++ [10%N]
  ++ of_string "Transaction Successful".

Definition total_line : text := of_string "Total Amount Rs. 500.00".

Definition declared_keys : list string :=
  [ "Sender"; "Receiver"; "Amount"; "Bank_Details"; "Transaction_ID";
    "Reference_Number"; "Transaction_Status" ]%string.

(** The shape C2 asks of a value: absent, or a non-empty string with no
    whitespace at either end and no trim-set character at the end. *)
Definition trimmed_value (v : option text) : bool :=
  match v with
  | None => true
  | Some s =>
      negb (text_eqb s []) && text_eqb (strip s) s
      && ends_outside is_trim_punct s
  end.

(** The shape the code gives a value: absent, or a string, possibly
    empty, of one line, with no whitespace in front and no trim-set
    character at the end. *)
Definition cleaned_value (v : option text) : bool :=
  match v with
  | None => true
  | Some s =>
      head_not_space s && ends_outside is_trim_punct s
      && negb (existsb (N.eqb 10) s)
  end.

(** Every rule of [extract_data], the override included. *)
Definition script_rules : list regex :=
  Script.sender_patterns ++ Script.receiver_patterns ++ Script.amount_patterns
  ++ Script.bank_patterns ++ Script.transaction_id_patterns
  ++ Script.reference_patterns ++ Script.status_patterns
  ++ [Script.override_sender_pattern].

(** Every rule of [extract_clean_data]. *)
Definition script2_rules : list regex :=
  [ Script2.source_title; Script2.sent_by; Script2.destination_title;
    Script2.to_pattern; Script2.amount_pattern; Script2.source_bank;
    Script2.destination_bank ].

(** No rule of the list matches anywhere in [t]. *)
Definition unrecognised (u : unicode_db) (rules : list regex) (t : text) : Prop :=
  Forall (fun pat => search u true pat t = None) rules.

(** Five numbered images of which the third cannot be decoded. *)
Definition numbered_imread (n : nat) : option text :=
  if n =? 3 then None else Some [N.of_nat n].

Definition numbered_basename (n : nat) : text := [N.of_nat (48 + n)].

(** [v] is a contiguous part of [t]. *)
Definition infix (v t : text) : Prop := exists x y, t = x ++ v ++ y.

(** [v] is the end of [t]. *)
Definition is_suffix (v t : text) : Prop := exists x, t = x ++ v.

(** A 7-bit character that is not whitespace. *)
Definition visible (c : char) : bool := is_7bit c && negb (is_space c).

(** The characters a match of [r] can consume. *)
Fixpoint alphabet (u : unicode_db) (icase : bool) (r : regex) (c : char) : bool :=
  match r with
  | Chr cs | Rep cs _ _ => in_cset u icase cs c
  | Cat a b | Alt a b => alphabet u icase a c || alphabet u icase b c
  | Opt a | Grp _ a => alphabet u icase a c
  | Eps | Eos => false
  end.

(** The characters group [n] of [r] can hold. *)
Fixpoint group_alphabet (u : unicode_db) (icase : bool) (n : nat) (r : regex)
         (c : char) : bool :=
  match r with
  | Grp m a =>
      ((m =? n) && alphabet u icase a c) || group_alphabet u icase n a c
  | Cat a b | Alt a b =>
      group_alphabet u icase n a c || group_alphabet u icase n b c
  | Opt a => group_alphabet u icase n a c
  | _ => false
  end.

(** [r] ends, on every branch, in group 1 around [.*]. *)
Fixpoint runs_to_end (r : regex) : bool :=
  match r with
  | Cat _ b => runs_to_end b
  | Alt a b => runs_to_end a && runs_to_end b
  | Grp 1 (Rep CAny 0 None) => true
  | _ => false
  end.

(** Digits, comma and full stop. *)
Definition amount_char (c : char) : bool :=
  ascii_digit c || (c =? 44)%N || (c =? 46)%N.

(** The file a printed line is about. *)
Definition line_file (path : Type) (l : line path) : path :=
  match l with
  | Processed f => f
  | ErrorProcessing f _ => f
  end.

Definition is_error (path : Type) (l : line path) : bool :=
  match l with
  | Processed _ => false
  | ErrorProcessing _ _ => true
  end.

Definition is_some (A : Type) (o : option A) : bool :=
  match o with
  | Some _ => true
  | None => false
  end.

(** The keys of a record of script2.py. *)
Definition declared_keys2 : list string :=
  [ "Sender"; "Receiver"; "Total_Amount"; "Sender_Bank"; "Receiver_Bank" ]%string.

(** [a] sorts no later than [b]: both file stems are numbers, in order. *)
Definition stem_le (path : Type) (stem_number : path -> option Z) (a b : path)
  : Prop :=
  exists x y, stem_number a = Some x /\ stem_number b = Some y /\ (x <= y)%Z.

(** Files named by their number, none of which can be decoded. *)
Definition number_stem (n : nat) : option Z := Some (Z.of_nat n).

(** The status phrases, in lower case. *)
Definition status_phrases : list text :=
  map (fun s => map ascii_lower (of_string s))
    [ "Transaction Successful"; "Money has been sent"; "Successfully Sent" ]%string.

(** Whitespace, a newline or a character of the trim set. *)
Definition is_edge (c : char) : bool := is_space c || is_trim_punct c.

(** * Properties *)

(** ** Greedy runs and what [sub] does with them *)

Lemma run_le p s : run p s <= length s.
Proof.
  induction s as [|c s IH]; simpl; [lia|]. destruct (p c); simpl; lia.
Qed.

Lemma length_skipn_run p (s : text) :
  length s - length (skipn (run p s) s) = run p s.
Proof.
  rewrite length_skipn. pose proof (run_le p s). lia.
Qed.

Section RunLemmas.

Variable u : unicode_db.
Variable icase : bool.

(** With a continuation that always accepts, a greedy repetition with
    no upper bound takes the whole run, or fails when the run is too
    short. *)
Lemma rep_takes_run (A : Type) (p : char -> bool) (f : text -> A) s :
  forall lo,
    rep p lo None s (fun s' => Some (f s'))
    = if lo <=? run p s then Some (f (skipn (run p s) s)) else None.
Proof.
  induction s as [|c s IH]; intros lo; simpl.
  - destruct lo; reflexivity.
  - destruct (p c) eqn:Hc; simpl.
    + rewrite IH. destruct lo as [|lo]; simpl.
      * reflexivity.
      * destruct (lo <=? run p s); reflexivity.
    + destruct lo; reflexivity.
Qed.

Lemma match_at_plus cs s :
  match_at u icase (plus cs) false s
  = if 1 <=? run (in_cset u icase cs) s
    then Some (skipn (run (in_cset u icase cs) s) s, [])
    else None.
Proof.
  unfold match_at, plus; simpl.
  apply (rep_takes_run (in_cset u icase cs) (fun s' => (s', @nil (nat * text)))).
Qed.

Lemma scan_plus cs repl s :
  render repl (scan u icase (plus cs) s 0)
  = squeeze (in_cset u icase cs) repl false s
  /\ render repl (scan u icase (plus cs) s (run (in_cset u icase cs) s))
     = squeeze (in_cset u icase cs) repl true s.
Proof.
  set (p := in_cset u icase cs).
  induction s as [|c s [IH0 IHr]].
  - split; reflexivity.
  - assert (H0 : render repl (scan u icase (plus cs) (c :: s) 0)
                 = squeeze p repl false (c :: s)).
    { cbn [scan]. rewrite match_at_plus. fold p.
      cbn [run squeeze]. destruct (p c) eqn:Hc.
      - cbn [Nat.leb fst].
        assert (E : length (c :: s) - length (skipn (S (run p s)) (c :: s))
                    = S (run p s)).
        { cbn [skipn length]. rewrite length_skipn.
          pose proof (run_le p s). lia. }
        rewrite E. cbn [render]. now rewrite IHr.
      - cbn [Nat.leb render]. now rewrite IH0. }
    split; [exact H0|].
    cbn [run]. destruct (p c) eqn:Hc.
    + cbn [scan squeeze]. rewrite Hc. exact IHr.
    + rewrite H0. cbn [squeeze]. rewrite Hc. reflexivity.
Qed.

Lemma sub_plus cs repl s :
  sub u icase (plus cs) repl s = squeeze (in_cset u icase cs) repl false s.
Proof. apply scan_plus. Qed.

End RunLemmas.

(** ** Trimming *)

Lemma lstrip_head s : head_not_space (lstrip s) = true.
Proof.
  induction s as [|c s IH]; simpl; [reflexivity|].
  destruct (is_space c) eqn:Hc; [exact IH|]. simpl. now rewrite Hc.
Qed.

Lemma lstrip_fixed s : head_not_space s = true -> lstrip s = s.
Proof.
  destruct s as [|c s]; simpl; [reflexivity|].
  now destruct (is_space c).
Qed.

Lemma rstrip_head s : head_not_space s = true -> head_not_space (rstrip s) = true.
Proof.
  destruct s as [|c s]; simpl; [reflexivity|]. intros Hc.
  destruct (rstrip s); [|exact Hc].
  destruct (is_space c) eqn:E; [reflexivity|]. simpl. now rewrite E.
Qed.

Lemma rstrip_idem s : rstrip (rstrip s) = rstrip s.
Proof.
  induction s as [|c s IH]; simpl; [reflexivity|].
  destruct (rstrip s) as [|k ks] eqn:E.
  - destruct (is_space c) eqn:Hc; simpl; [reflexivity|now rewrite Hc].
  - change (rstrip (c :: k :: ks)) with
      (match rstrip (k :: ks) with
       | [] => if is_space c then [] else [c]
       | kept => c :: kept
       end).
    now rewrite IH.
Qed.

Lemma strip_lstrip s : lstrip (strip s) = strip s.
Proof. apply lstrip_fixed, rstrip_head, lstrip_head. Qed.

Lemma strip_rstrip s : rstrip (strip s) = strip s.
Proof. apply rstrip_idem. Qed.

Lemma strip_idem s : strip (strip s) = strip s.
Proof. unfold strip at 1. now rewrite strip_lstrip, strip_rstrip. Qed.

Lemma lstrip_incl s : incl (lstrip s) s.
Proof.
  induction s as [|c s IH]; simpl; [apply incl_refl|].
  destruct (is_space c); [now apply incl_tl|apply incl_refl].
Qed.

Lemma rstrip_incl s : incl (rstrip s) s.
Proof.
  induction s as [|c s IH]; simpl; [apply incl_refl|].
  destruct (rstrip s) as [|k ks].
  - destruct (is_space c); [apply incl_nil_l|].
    intros x [->|[]]. now left.
  - intros x [->|Hx]; [now left|right; now apply IH].
Qed.

Lemma strip_incl s : incl (strip s) s.
Proof.
  unfold strip. eapply incl_tran; [apply rstrip_incl|apply lstrip_incl].
Qed.

(** ** Single spacing *)

Lemma single_spaced_weaken b s :
  single_spaced b s = true -> single_spaced false s = true.
Proof.
  destruct s as [|c s]; simpl; [reflexivity|].
  destruct (is_space c); [|tauto].
  intros H. apply andb_true_iff in H as [H1 H2].
  apply andb_true_iff in H1 as [H1 _]. now rewrite H1, H2.
Qed.

Lemma single_spaced_pairs s :
  forall b, single_spaced b s = true -> no_space_pair s = true.
Proof.
  induction s as [|a s IH]; intros b; simpl; [reflexivity|].
  destruct (is_space a) eqn:Ha.
  - rewrite !andb_true_iff. intros [_ H]. split; [|now apply (IH true)].
    destruct s as [|c s]; [reflexivity|]. simpl in H.
    destruct (is_space c); [|reflexivity].
    simpl in H. rewrite andb_false_r in H. discriminate.
  - intros H. rewrite (IH false H), andb_true_r.
    destruct s; reflexivity.
Qed.

Lemma single_spaced_blank s :
  forall b c, single_spaced b s = true -> In c s -> is_space c = true -> c = 32%N.
Proof.
  induction s as [|a s IH]; intros b c H Hin Hc; [destruct Hin|].
  simpl in H. destruct Hin as [->|Hin].
  - rewrite Hc in H. rewrite !andb_true_iff in H.
    now apply N.eqb_eq.
  - destruct (is_space a).
    + rewrite !andb_true_iff in H. now apply (IH true c).
    + now apply (IH false c).
Qed.

Lemma single_spaced_lstrip s :
  forall b, single_spaced b s = true -> single_spaced false (lstrip s) = true.
Proof.
  induction s as [|c s IH]; intros b; simpl; [reflexivity|].
  destruct (is_space c) eqn:Hc.
  - rewrite !andb_true_iff. intros [_ H]. now apply (IH true).
  - intros H. simpl. now rewrite Hc.
Qed.

Lemma single_spaced_rstrip s :
  forall b, single_spaced b s = true -> single_spaced b (rstrip s) = true.
Proof.
  induction s as [|c s IH]; intros b; simpl; [reflexivity|].
  destruct (rstrip s) as [|k ks] eqn:E.
  - destruct (is_space c) eqn:Hc; [reflexivity|]. simpl. now rewrite Hc.
  - intros H. cbn [single_spaced]. destruct (is_space c).
    + rewrite !andb_true_iff in *. destruct H as [H1 H2].
      split; [exact H1|]. now apply IH.
    + now apply IH.
Qed.

Lemma single_spaced_strip s :
  single_spaced false s = true -> single_spaced false (strip s) = true.
Proof.
  intros H. apply single_spaced_rstrip. now apply (single_spaced_lstrip s false).
Qed.

Lemma squeeze_single_spaced s :
  forall b, single_spaced b (squeeze is_space [32%N] b s) = true.
Proof.
  induction s as [|c s IH]; intros b; simpl; [reflexivity|].
  destruct (is_space c) eqn:Hc.
  - destruct b; simpl; apply IH.
  - simpl. rewrite Hc. apply IH.
Qed.

Lemma squeeze_single_spaced_id s :
  forall b, single_spaced b s = true -> squeeze is_space [32%N] b s = s.
Proof.
  induction s as [|c s IH]; intros b; simpl; [reflexivity|].
  destruct (is_space c) eqn:Hc.
  - rewrite !andb_true_iff. intros [[Hb Hn] H].
    apply N.eqb_eq in Hb. subst c.
    destruct b; [discriminate|]. simpl. f_equal. now apply IH.
  - intros H. f_equal. now apply IH.
Qed.

Lemma squeeze_ext p q repl s :
  (forall c, p c = q c) -> forall b, squeeze p repl b s = squeeze q repl b s.
Proof.
  intros E. induction s as [|c s IH]; intros b; simpl; [reflexivity|].
  rewrite E. destruct (q c); now rewrite IH.
Qed.

Lemma squeeze_outside p repl s :
  (forall c, In c s -> p c = false) -> forall b, squeeze p repl b s = s.
Proof.
  induction s as [|c s IH]; intros H b; simpl; [reflexivity|].
  rewrite (H c (or_introl eq_refl)). f_equal. apply IH.
  intros x Hx. apply H. now right.
Qed.

Lemma squeeze_Forall (Q : char -> Prop) p repl s :
  Forall Q repl ->
  (forall c, In c s -> p c = false -> Q c) ->
  forall b, Forall Q (squeeze p repl b s).
Proof.
  intros Hr. induction s as [|c s IH]; intros H b; simpl; [constructor|].
  assert (IH' : forall b', Forall Q (squeeze p repl b' s)).
  { apply IH. intros x Hx. apply H. now right. }
  destruct (p c) eqn:Hc.
  - apply Forall_app. split; [destruct b; [constructor|exact Hr]|apply IH'].
  - constructor; [apply H; [now left|exact Hc]|apply IH'].
Qed.

(** ** The clean-up of the OCR text *)

Lemma non_ascii_class u c :
  in_cset u false (CNot (CRange 0%N 127%N)) c = negb (is_7bit c).
Proof.
  simpl. unfold between, is_7bit.
  destruct (N.ltb_spec c 128), (N.leb_spec 0 c), (N.leb_spec c 127);
    simpl; try reflexivity; lia.
Qed.

Lemma normalize_squeeze u raw :
  Script.normalize u raw
  = strip (squeeze is_space [32%N] false
             (squeeze (fun c => negb (is_7bit c)) [32%N] false raw)).
Proof.
  unfold Script.normalize, Script.non_ascii_run, Script.space_run.
  rewrite !sub_plus. f_equal.
  change (in_cset u false CSpace) with is_space.
  f_equal. apply squeeze_ext. intros c. apply non_ascii_class.
Qed.

Lemma normalize_seven_bit u raw : seven_bit (Script.normalize u raw).
Proof.
  rewrite normalize_squeeze. unfold seven_bit.
  eapply incl_Forall; [apply strip_incl|].
  apply squeeze_Forall; [repeat constructor|].
  intros c Hc _. revert c Hc. apply Forall_forall.
  apply squeeze_Forall; [repeat constructor|].
  intros c _ Hc. now apply negb_false_iff in Hc.
Qed.

Lemma normalize_single_spaced u raw :
  single_spaced false (Script.normalize u raw) = true.
Proof.
  rewrite normalize_squeeze. apply single_spaced_strip, squeeze_single_spaced.
Qed.

Lemma normalize_fixed u s :
  seven_bit s -> single_spaced false s = true -> strip s = s ->
  Script.normalize u s = s.
Proof.
  intros H7 Hs Ht. rewrite normalize_squeeze.
  rewrite (@squeeze_outside (fun c => negb (is_7bit c)) [32%N] s).
  - now rewrite squeeze_single_spaced_id.
  - intros c Hc. apply negb_false_iff. revert c Hc. now apply Forall_forall.
Qed.

(** ** The trailing-punctuation strip *)

Lemma trim_class u c : in_cset u false (chars ".,:;") c = is_trim_punct c.
Proof.
  unfold is_trim_punct. simpl.
  destruct (c =? 46)%N, (c =? 44)%N, (c =? 58)%N, (c =? 59)%N; reflexivity.
Qed.

Lemma drop_trailing_nil p s : drop_trailing p s = [] -> forallb p s = true.
Proof.
  destruct s as [|c s]; [reflexivity|]. cbn [drop_trailing].
  destruct (forallb p (c :: s)); [reflexivity|discriminate].
Qed.

Lemma drop_trailing_ends p s : ends_outside p (drop_trailing p s) = true.
Proof.
  unfold ends_outside. induction s as [|c s IH]; [reflexivity|].
  cbn [drop_trailing]. destruct (forallb p (c :: s)) eqn:Hall; [reflexivity|].
  cbn [rev]. destruct (rev (drop_trailing p s)) as [|k ks] eqn:E.
  - simpl. apply (f_equal (@rev char)) in E. rewrite rev_involutive in E.
    apply drop_trailing_nil in E. simpl in Hall. rewrite E, andb_true_r in Hall.
    now rewrite Hall.
  - exact IH.
Qed.

Lemma drop_trailing_incl p s : incl (drop_trailing p s) s.
Proof.
  induction s as [|c s IH]; [apply incl_refl|]. cbn [drop_trailing].
  destruct (forallb p (c :: s)); [apply incl_nil_l|].
  intros x [->|Hx]; [now left|right; now apply IH].
Qed.

Lemma drop_trailing_head p s :
  head_not_space s = true -> head_not_space (drop_trailing p s) = true.
Proof.
  destruct s as [|c s]; [reflexivity|]. cbn [drop_trailing].
  destruct (forallb p (c :: s)); [reflexivity|]. exact (fun H => H).
Qed.

Lemma forallb_same (p q : char -> bool) s :
  (forall c, p c = q c) -> forallb p s = forallb q s.
Proof.
  intros E. induction s as [|c s IH]; simpl; [reflexivity|]. now rewrite E, IH.
Qed.

Lemma drop_trailing_ext p q s :
  (forall c, p c = q c) -> drop_trailing p s = drop_trailing q s.
Proof.
  intros E. induction s as [|c s IH]; [reflexivity|]. cbn [drop_trailing].
  now rewrite (forallb_same p q (c :: s) E), IH.
Qed.

Section TrailingPunctuation.

Variable u : unicode_db.

Let p := in_cset u false (chars ".,:;").

(** Followed by [$], the repetition succeeds only when it reaches the
    end of a text that has no newline. *)
Lemma rep_to_end s :
  no_newline s ->
  forall lo,
    rep p lo None s
        (fun s1 => rx u false Eos s1 [] (fun s' g => Some (s', g)))
    = if (lo <=? length s) && forallb p s then Some ([], []) else None.
Proof.
  induction s as [|c s IH]; intros Hn lo.
  - destruct lo; reflexivity.
  - assert (Hc : (c =? 10)%N = false).
    { apply N.eqb_neq. intros ->. apply Hn. now left. }
    assert (Hs : no_newline s) by (intros H; apply Hn; now right).
    assert (Hstop : rep_stop lo (c :: s)
                      (fun s1 => rx u false Eos s1 []
                                    (fun s' g => Some (s', g)))
                    = None).
    { destruct lo; [|reflexivity]. simpl.
      destruct s; [now rewrite Hc|reflexivity]. }
    cbn [rep forallb length]. destruct (p c) eqn:Hp; cbn [andb more].
    + rewrite (IH Hs). destruct lo as [|lo]; cbn [pred Nat.leb].
      * destruct (forallb p s); [reflexivity|exact Hstop].
      * destruct ((lo <=? length s) && forallb p s); [reflexivity|exact Hstop].
    + rewrite andb_false_r. exact Hstop.
Qed.

Lemma match_at_trailing s :
  no_newline s ->
  match_at u false Script.trailing_punctuation false s
  = if (1 <=? length s) && forallb p s then Some ([], []) else None.
Proof. intros Hn. apply (rep_to_end Hn 1). Qed.

Lemma scan_skip_all r (s : text) :
  scan u false r s (length s) = scan u false r [] 0.
Proof. induction s as [|c s IH]; [reflexivity|exact IH]. Qed.

Lemma sub_trailing s :
  no_newline s ->
  sub u false Script.trailing_punctuation [] s = drop_trailing p s.
Proof.
  unfold sub. induction s as [|c s IH]; intros Hn; [reflexivity|].
  assert (Hs : no_newline s) by (intros H; apply Hn; now right).
  cbn [scan]. rewrite (match_at_trailing Hn).
  cbn [length Nat.leb andb drop_trailing].
  destruct (forallb p (c :: s)).
  - cbn [fst length Nat.sub render app]. rewrite scan_skip_all.
    reflexivity.
  - cbn [render]. now rewrite (IH Hs).
Qed.

End TrailingPunctuation.

Lemma first_line_no_newline s : no_newline (first_line s).
Proof.
  unfold no_newline. induction s as [|c s IH]; simpl; [tauto|].
  destruct (N.eqb_spec c 10); simpl; [tauto|]. intros [H|H]; [congruence|tauto].
Qed.

(** A cleaned value: the three steps of [find_first_match]. *)
Lemma shared_cleanup_eq u key v :
  Contract.shared_cleanup u key v
  = drop_trailing is_trim_punct (strip (first_line (strip v))).
Proof.
  unfold Contract.shared_cleanup. rewrite sub_trailing.
  - apply drop_trailing_ext. intros c. apply trim_class.
  - intros H. apply strip_incl in H. now apply first_line_no_newline in H.
Qed.

Lemma shared_cleanup_shape u key v :
  let value := Contract.shared_cleanup u key v in
  head_not_space value = true
  /\ ends_outside is_trim_punct value = true
  /\ no_newline value.
Proof.
  intros value. subst value. rewrite shared_cleanup_eq. repeat split.
  - apply drop_trailing_head. unfold strip. apply rstrip_head, lstrip_head.
  - apply drop_trailing_ends.
  - intros H. apply drop_trailing_incl, strip_incl in H.
    now apply first_line_no_newline in H.
Qed.

(** ** The matcher: where a successful match ends up *)

Section MatcherLemmas.

Variable u : unicode_db.
Variable icase : bool.

Lemma rep_reaches (A : Type) p s (k : text -> option A) a :
  forall lo hi,
    rep p lo hi s k = Some a -> exists s1, k s1 = Some a.
Proof.
  induction s as [|c s IH]; intros lo hi; cbn [rep].
  - destruct lo; simpl; [eauto|discriminate].
  - assert (Hstop : rep_stop lo (c :: s) k = Some a -> exists s1, k s1 = Some a).
    { destruct lo; simpl; [eauto|discriminate]. }
    destruct (p c && more hi); [|exact Hstop].
    destruct (rep p (pred lo) (option_map pred hi) s k) eqn:E; [|exact Hstop].
    intros [= ->]. eapply IH, E.
Qed.

(** A successful match has called its continuation, with group 1 set
    when the pattern always sets it or it was set before. *)
Lemma rx_reaches (A : Type) r :
  forall s g (k : text -> captures -> option A) a,
    rx u icase r s g k = Some a ->
    exists s1 g1,
      k s1 g1 = Some a
      /\ (binds1 r = true \/ bound1 g -> bound1 g1).
Proof.
  induction r as [|cs|r1 IH1 r2 IH2|r1 IH1 r2 IH2|r1 IH1|cs lo hi|n r1 IH1|];
    intros s g k a; cbn [rx binds1].
  - intros H. exists s, g. split; [exact H|]. intros [|]; [discriminate|tauto].
  - destruct s as [|c s]; [discriminate|].
    destruct (in_cset u icase cs c); [|discriminate].
    intros H. exists s, g. split; [exact H|]. intros [|]; [discriminate|tauto].
  - intros H. apply IH1 in H as (s1 & g1 & H & B1).
    apply IH2 in H as (s2 & g2 & H & B2).
    exists s2, g2. split; [exact H|].
    rewrite orb_true_iff. intuition.
  - destruct (rx u icase r1 s g k) eqn:E.
    + intros [= ->]. apply IH1 in E as (s1 & g1 & H & B1).
      exists s1, g1. split; [exact H|]. rewrite andb_true_iff. intuition.
    + intros H. apply IH2 in H as (s1 & g1 & H & B1).
      exists s1, g1. split; [exact H|]. rewrite andb_true_iff. intuition.
  - destruct (rx u icase r1 s g k) eqn:E.
    + intros [= ->]. apply IH1 in E as (s1 & g1 & H & B1).
      exists s1, g1. split; [exact H|]. intros [|]; [discriminate|tauto].
    + intros H. exists s, g. split; [exact H|]. intros [|]; [discriminate|tauto].
  - intros H. apply rep_reaches in H as (s1 & H).
    exists s1, g. split; [exact H|]. intros [|]; [discriminate|tauto].
  - intros H. apply IH1 in H as (s1 & g1 & H & B1).
    exists s1, ((n, firstn (length s - length s1) s) :: g1). split; [exact H|].
    unfold bound1 in *. cbn [group]. destruct (Nat.eqb_spec n 1) as [->|Hn].
    + intros _. discriminate.
    + cbn [orb]. exact B1.
  - intros H. exists s, g. split.
    + destruct s as [|c [|]]; [exact H| |discriminate].
      destruct (c =? 10)%N; [exact H|discriminate].
    + intros [|]; [discriminate|tauto].
Qed.

Lemma match_at_bound r adv s m :
  binds1 r = true -> match_at u icase r adv s = Some m -> bound1 (snd m).
Proof.
  unfold match_at. intros Hb H.
  apply rx_reaches in H as (s1 & g1 & H & B).
  destruct (adv && (length s1 =? length s)); [discriminate|].
  injection H as <-. apply B. now left.
Qed.

Lemma search_bound r s m :
  binds1 r = true -> search u icase r s = Some m -> bound1 (snd m).
Proof.
  intros Hb. induction s as [|c s IH]; cbn [search].
  - destruct (match_at u icase r false []) eqn:E; [|discriminate].
    intros [= <-]. exact (match_at_bound r false [] Hb E).
  - destruct (match_at u icase r false (c :: s)) eqn:E; [|exact IH].
    intros [= <-]. exact (match_at_bound r false (c :: s) Hb E).
Qed.

(** The first match of the find-all scan is the match [search] finds. *)
Lemma scan_first r s :
  hd_error (hits (scan u icase r s 0)) = search u icase r s.
Proof.
  induction s as [|c s IH]; cbn [scan search].
  - destruct (match_at u icase r false []) as [m|]; [|reflexivity].
    destruct (length [] - length (fst m)); reflexivity.
  - destruct (match_at u icase r false (c :: s)) as [m|]; [|exact IH].
    destruct (length (c :: s) - length (fst m)); reflexivity.
Qed.

Lemma findall_first r s :
  hd_error (findall u icase r s)
  = option_map (item_of r) (search u icase r s).
Proof.
  unfold findall. rewrite <- scan_first.
  destruct (hits (scan u icase r s 0)); reflexivity.
Qed.

End MatcherLemmas.

(** ** [find_first_match] *)

Section FirstMatch.

Variable u : unicode_db.

Lemma first_text_search pat t :
  ngroups pat <= 1 ->
  Contract.first_text u pat t
  = option_map (rule_text pat) (search u true pat t).
Proof.
  intros Hn. unfold Contract.first_text.
  pose proof (findall_first u true pat t) as H.
  destruct (search u true pat t) as [m|]; cbn [option_map] in *.
  - destruct (findall u true pat t) as [|i l]; [discriminate|].
    injection H as ->. unfold item_of, rule_text.
    destruct (ngroups pat) as [|[|n]]; [reflexivity|reflexivity|lia].
  - destruct (findall u true pat t); [reflexivity|discriminate].
Qed.

Lemma clean_str key v :
  Script.clean u (IStr v) = Ok (Contract.shared_cleanup u key v).
Proof. reflexivity. Qed.

(** With rules of at most one group, [find_first_match] raises nothing
    and is the rule application of the contract. *)
Lemma find_first_match_ok key patterns t :
  forallb (fun pat => ngroups pat <=? 1) patterns = true ->
  Script.find_first_match u t patterns
  = Ok (Contract.first_match u (Contract.shared_cleanup u) key patterns t).
Proof.
  induction patterns as [|pat ps IH]; [reflexivity|].
  cbn [forallb]. rewrite andb_true_iff. intros [Hn Hps].
  apply Nat.leb_le in Hn.
  cbn [Script.find_first_match Contract.first_match].
  unfold Contract.first_text.
  pose proof (findall_first u true pat t) as H.
  destruct (findall u true pat t) as [|i l]; [now apply IH|].
  cbn [hd_error] in H.
  destruct (search u true pat t) as [m|]; [|discriminate].
  injection H as ->. unfold item_of.
  destruct (ngroups pat) as [|[|n]]; [reflexivity|reflexivity|lia].
Qed.

End FirstMatch.

(** ** The two extractors against the contract *)

Section Extractors.

Variable u : unicode_db.

Lemma extract_data_contract t :
  Script.extract_data u t
  = Ok (Contract.extract u (Contract.shared_cleanup u) Script.falsy
          Contract.broad t).
Proof.
  unfold Script.extract_data.
  rewrite (find_first_match_ok u "Sender" Script.sender_patterns t eq_refl).
  rewrite (find_first_match_ok u "Receiver" Script.receiver_patterns t eq_refl).
  rewrite (find_first_match_ok u "Amount" Script.amount_patterns t eq_refl).
  rewrite (find_first_match_ok u "Bank_Details" Script.bank_patterns t eq_refl).
  rewrite (find_first_match_ok u "Transaction_ID"
             Script.transaction_id_patterns t eq_refl).
  rewrite (find_first_match_ok u "Reference_Number"
             Script.reference_patterns t eq_refl).
  rewrite (find_first_match_ok u "Transaction_Status"
             Script.status_patterns t eq_refl).
  rewrite (find_first_match_ok u "Sender"
             [Script.override_sender_pattern] t eq_refl).
  unfold Contract.extract, Contract.broad, Contract.field_value.
  cbn [map Contract.f_key Contract.f_rules Contract.f_override bind].
  generalize (Contract.first_match u (Contract.shared_cleanup u) "Sender"
                [Script.override_sender_pattern] t).
  generalize (Contract.first_match u (Contract.shared_cleanup u) "Sender"
                Script.sender_patterns t).
  generalize (Contract.first_match u (Contract.shared_cleanup u) "Receiver"
                Script.receiver_patterns t).
  generalize (Contract.first_match u (Contract.shared_cleanup u) "Amount"
                Script.amount_patterns t).
  generalize (Contract.first_match u (Contract.shared_cleanup u) "Bank_Details"
                Script.bank_patterns t).
  generalize (Contract.first_match u (Contract.shared_cleanup u) "Transaction_ID"
                Script.transaction_id_patterns t).
  generalize (Contract.first_match u (Contract.shared_cleanup u) "Reference_Number"
                Script.reference_patterns t).
  generalize (Contract.first_match u (Contract.shared_cleanup u) "Transaction_Status"
                Script.status_patterns t).
  intros st rf tx bk am rc sd ov.
  destruct sd as [[|c v]|]; reflexivity.
Qed.

Lemma first_match_search cleanup key pat rules t :
  ngroups pat <= 1 ->
  Contract.first_match u cleanup key (pat :: rules) t
  = match search u true pat t with
    | Some m => Some (cleanup key (rule_text pat m))
    | None => Contract.first_match u cleanup key rules t
    end.
Proof.
  intros Hn. cbn [Contract.first_match]. rewrite first_text_search by exact Hn.
  destruct (search u true pat t); reflexivity.
Qed.

Lemma group1_search pat t m :
  ngroups pat = 1 -> binds1 pat = true -> search u true pat t = Some m ->
  Script2.group1 pat m = Ok (Some (rule_text pat m)).
Proof.
  intros Hn Hb Hs. unfold Script2.group1, rule_text, group_text. rewrite Hn.
  cbn [Nat.eqb]. apply (search_bound u true pat t Hb) in Hs.
  unfold bound1 in Hs. destruct (group 1 (snd m)); [reflexivity|congruence].
Qed.

Lemma store_search key pat t m data :
  ngroups pat = 1 -> binds1 pat = true -> search u true pat t = Some m ->
  Script2.store key pat m data
  = Ok (Script.dict_set key (Some (strip (rule_text pat m))) data).
Proof.
  intros Hn Hb Hs. unfold Script2.store.
  now rewrite (group1_search pat t Hn Hb Hs).
Qed.

Lemma store_one key pat t data :
  ngroups pat = 1 -> binds1 pat = true ->
  String.eqb key "Total_Amount" = false ->
  match search u true pat t with
  | Some m => Script2.store key pat m data
  | None => Ok data
  end
  = Ok (put key (Contract.first_match u Contract.strict_cleanup key [pat] t) data).
Proof.
  intros Hn Hb Hk. rewrite first_match_search by lia.
  destruct (search u true pat t) as [m|] eqn:Hs; [|reflexivity].
  rewrite (store_search key pat t data Hn Hb Hs).
  unfold Contract.strict_cleanup. now rewrite Hk.
Qed.

Lemma store_two key p1 p2 t data :
  ngroups p1 = 1 -> binds1 p1 = true ->
  ngroups p2 = 1 -> binds1 p2 = true ->
  String.eqb key "Total_Amount" = false ->
  match search u true p1 t with
  | Some m => Script2.store key p1 m data
  | None =>
      match search u true p2 t with
      | Some m => Script2.store key p2 m data
      | None => Ok data
      end
  end
  = Ok (put key (Contract.first_match u Contract.strict_cleanup key [p1; p2] t)
            data).
Proof.
  intros Hn1 Hb1 Hn2 Hb2 Hk. rewrite first_match_search by lia.
  destruct (search u true p1 t) as [m|] eqn:Hs.
  - rewrite (store_search key p1 t data Hn1 Hb1 Hs).
    unfold Contract.strict_cleanup. now rewrite Hk.
  - now apply store_one.
Qed.

Lemma extract_clean_data_contract t :
  Script2.extract_clean_data u t
  = Ok (Contract.extract u Contract.strict_cleanup Contract.is_absent
          Contract.strict
          (sub u false Script.space_run (of_string " ") t)).
Proof.
  unfold Script2.extract_clean_data.
  generalize (sub u false Script.space_run (of_string " ") t). clear t. intros t.
  rewrite (store_two "Sender" Script2.source_title Script2.sent_by t
             Script2.empty_record eq_refl eq_refl eq_refl eq_refl eq_refl).
  cbn [bind].
  rewrite (store_two "Receiver" Script2.destination_title Script2.to_pattern t
             _ eq_refl eq_refl eq_refl eq_refl eq_refl).
  cbn [bind].
  assert (Ha : forall data,
             match search u true Script2.amount_pattern t with
             | Some m =>
                 g <- Script2.group1 Script2.amount_pattern m ;;
                 v <- Script2.replace_method g ;;
                 Ok (Script.dict_set "Total_Amount" (Some (strip v)) data)
             | None => Ok data
             end
             = Ok (put "Total_Amount"
                       (Contract.first_match u Contract.strict_cleanup
                          "Total_Amount" [Script2.amount_pattern] t) data)).
  { intros data. rewrite first_match_search by (cbn; lia).
    destruct (search u true Script2.amount_pattern t) as [m|] eqn:Hs;
      [|reflexivity].
    now rewrite (group1_search Script2.amount_pattern t eq_refl eq_refl Hs). }
  rewrite Ha. cbn [bind].
  rewrite (store_one "Sender_Bank" Script2.source_bank t _
             eq_refl eq_refl eq_refl).
  cbn [bind].
  rewrite (store_one "Receiver_Bank" Script2.destination_bank t _
             eq_refl eq_refl eq_refl).
  unfold Contract.extract, Contract.strict, Contract.field_value.
  cbn [map Contract.f_key Contract.f_rules Contract.f_override].
  generalize (Contract.first_match u Contract.strict_cleanup "Sender"
                [Script2.source_title; Script2.sent_by] t).
  generalize (Contract.first_match u Contract.strict_cleanup "Receiver"
                [Script2.destination_title; Script2.to_pattern] t).
  generalize (Contract.first_match u Contract.strict_cleanup "Total_Amount"
                [Script2.amount_pattern] t).
  generalize (Contract.first_match u Contract.strict_cleanup "Sender_Bank"
                [Script2.source_bank] t).
  generalize (Contract.first_match u Contract.strict_cleanup "Receiver_Bank"
                [Script2.destination_bank] t).
  intros [|] [|] [|] [|] [|]; reflexivity.
Qed.

End Extractors.


(** * The statements of the specification *)

(** ** The worked example *)

(** C1: the receipt of the example, one label per line, yields the
    values the specification states, because [find_first_match] stops a
    value at the end of its line.  The clean-up of
    [extract_text_from_image] has turned every newline into a blank
    before [extract_data] sees the text, so on the example line that
    guard finds no newline: [Sender] and [Receiver] run on to the end of
    the text, where the specification states ["Alice Khan"] and
    ["Bob Shah"].  [Amount], [Transaction_ID] and [Transaction_Status]
    are as stated on both texts. *)
Theorem example_line_ends_lost (u : unicode_db) :
  Script.normalize u receipt_lines = example_receipt
  /\ Script.extract_data u receipt_lines
     = Ok [ ("Sender"%string, Some (of_string "Alice Khan"));
            ("Receiver"%string, Some (of_string "Bob Shah"));
            ("Amount"%string, Some (of_string "1,250.00"));
            ("Bank_Details"%string, None);
            ("Transaction_ID"%string, Some (of_string "TXN99123"));
            ("Reference_Number"%string, None);
            ("Transaction_Status"%string,
             Some (of_string "Transaction Successful")) ]
  /\ Script.extract_data u example_receipt
     = Ok [ ("Sender"%string,
             Some (of_string "Alice Khan To: Bob Shah Amount: Rs. 1,250.00 Transaction ID: TXN99123 Transaction Successful"));
            ("Receiver"%string,
             Some (of_string "Bob Shah Amount: Rs. 1,250.00 Transaction ID: TXN99123 Transaction Successful"));
            ("Amount"%string, Some (of_string "1,250.00"));
            ("Bank_Details"%string, None);
            ("Transaction_ID"%string, Some (of_string "TXN99123"));
            ("Reference_Number"%string, None);
            ("Transaction_Status"%string,
             Some (of_string "Transaction Successful")) ].
Proof. repeat split; vm_compute; reflexivity. Qed.

(** ** The unanchored receiver keyword *)

(** C10: [total_line] is clean text with no receiver label, yet the
    keyword [To] matches the start of [Total], without regard to case or
    word boundary, and [Receiver] is ["tal Amount Rs. 500.00"]. *)
Theorem receiver_matches_inside_total (u : unicode_db) :
  Script.normalize u total_line = total_line
  /\ search u true (hd Eps Script.receiver_patterns) total_line
     = Some (total_line, [(1, of_string "tal Amount Rs. 500.00")])
  /\ field_of (Script.extract_data u total_line) "Receiver"
     = Some (Some (of_string "tal Amount Rs. 500.00")).
Proof. repeat split; vm_compute; reflexivity. Qed.

(** ** The text clean-up *)

(** C8, as stated, fails: a control character is 7-bit but not printable,
    and the clean-up keeps it. *)
Lemma normalize_keeps_control_character :
  Script.normalize plain_db [7%N] = [7%N] /\ printable 7%N = false.
Proof. split; vm_compute; reflexivity. Qed.

(** C8, amended: the clean-up replaces every run of code points above 127
    by one blank, then every run of whitespace by one blank, and trims
    the result; its output has no code point above 127 (control
    characters below 32 and DEL stay), each whitespace character in it is
    a blank, no two neighbours are both whitespace, and it neither starts
    nor ends with whitespace. *)
Theorem normalize_output (u : unicode_db) (raw : text) :
  Script.normalize u raw
  = strip (squeeze is_space [32%N] false
             (squeeze (fun c => negb (is_7bit c)) [32%N] false raw))
  /\ forallb is_7bit (Script.normalize u raw) = true
  /\ forallb (fun c => negb (is_space c) || (c =? 32)%N)
       (Script.normalize u raw) = true
  /\ no_space_pair (Script.normalize u raw) = true
  /\ strip (Script.normalize u raw) = Script.normalize u raw.
Proof.
  split; [apply normalize_squeeze|].
  split; [apply forallb_forall, Forall_forall, normalize_seven_bit|].
  split.
  - apply forallb_forall. intros c Hc.
    destruct (is_space c) eqn:Hs; [|reflexivity].
    assert (E : c = 32%N).
    { eapply single_spaced_blank; [apply (normalize_single_spaced u raw)| |];
        assumption. }
    now rewrite E.
  - split.
    + apply (single_spaced_pairs _ false), normalize_single_spaced.
    + rewrite normalize_squeeze. apply strip_idem.
Qed.

(** C9: the clean-up is idempotent. *)
Theorem normalize_idempotent (u : unicode_db) (x : text) :
  Script.normalize u (Script.normalize u x) = Script.normalize u x.
Proof.
  apply normalize_fixed.
  - apply normalize_seven_bit.
  - apply normalize_single_spaced.
  - rewrite normalize_squeeze. apply strip_idem.
Qed.

(** ** The record invariant *)

(** C2, as stated, fails: a label with nothing behind it yields the empty
    string, and a value whose punctuation follows a blank keeps the
    blank. *)
Lemma values_empty_or_blank_ended :
  (field_of (Script.extract_data plain_db (of_string "To:")) "Receiver"
   = Some (Some [])
   /\ trimmed_value (Some []) = false)
  /\ (field_of (Script.extract_data plain_db (of_string "To: Bob .")) "Receiver"
      = Some (Some (of_string "Bob "))
      /\ trimmed_value (Some (of_string "Bob ")) = false).
Proof. repeat split; vm_compute; reflexivity. Qed.

Lemma first_match_cleaned u key rules t :
  cleaned_value (Contract.first_match u (Contract.shared_cleanup u) key rules t)
  = true.
Proof.
  induction rules as [|pat rules IH]; [reflexivity|].
  cbn [Contract.first_match].
  destruct (Contract.first_text u pat t) as [v|]; [|exact IH].
  destruct (shared_cleanup_shape u key v) as (H1 & H2 & H3).
  cbn [cleaned_value]. rewrite H1, H2. cbn [andb].
  apply negb_true_iff.
  destruct (existsb (N.eqb 10) (Contract.shared_cleanup u key v)) eqn:E;
    [|reflexivity].
  apply existsb_exists in E as (c & Hc & E). apply N.eqb_eq in E. subst c.
  now apply H3 in Hc.
Qed.

Lemma field_value_cleaned u unset f t :
  cleaned_value
    (Contract.field_value u (Contract.shared_cleanup u) unset f t) = true.
Proof.
  unfold Contract.field_value. destruct (Contract.f_override f).
  - destruct (unset _); apply first_match_cleaned.
  - apply first_match_cleaned.
Qed.

(** C2, amended: for every input text the record of [extract_data] has
    every declared key, and each value is either [None] or a string,
    possibly empty, with no newline, no leading whitespace and no
    trailing character of the trim set; whitespace in front of stripped
    punctuation stays at its end. *)
Theorem record_invariant (u : unicode_db) (t : text) :
  exists data,
    Script.extract_data u t = Ok data
    /\ Script.keys data = declared_keys
    /\ forallb (fun kv => cleaned_value (snd kv)) data = true.
Proof.
  eexists. split; [apply extract_data_contract|]. split; [reflexivity|].
  unfold Contract.extract, Contract.broad. cbn [map forallb snd].
  now rewrite !field_value_cleaned.
Qed.

(** ** One contract, two registries *)

(** C3, as stated, fails: on ["Amount 1,250.00"] the strict variant
    removes the comma, which the shared clean-up keeps; and on
    ["by x From:"] the broad variant takes the override although the
    primary rule has set the field, to the empty string. *)
Lemma variants_leave_the_contract :
  Script2.extract_clean_data plain_db (of_string "Amount 1,250.00")
  <> Ok (Contract.extract plain_db (Contract.shared_cleanup plain_db)
           Contract.is_absent Contract.strict (of_string "Amount 1,250.00"))
  /\ Script.extract_data plain_db (of_string "by x From:")
     <> Ok (Contract.extract plain_db (Contract.shared_cleanup plain_db)
              Contract.is_absent Contract.broad (of_string "by x From:")).
Proof. split; vm_compute; intros H; discriminate H. Qed.

(** C3, amended: both variants are the contract's extractor on their
    registry (rules in priority order, first match wins, absent
    otherwise), but they differ in more than rule content.  The broad one
    applies newline truncation, trim and trailing-punctuation strip, and
    takes the Sender override when the primary value is absent or empty.
    The strict one collapses whitespace in the text again, cleans a value
    by a trim only, after removing every comma of [Total_Amount], and has
    no override. *)
Theorem variants_against_contract (u : unicode_db) (t : text) :
  Script.extract_data u t
  = Ok (Contract.extract u (Contract.shared_cleanup u) Script.falsy
          Contract.broad t)
  /\ Script2.extract_clean_data u t
     = Ok (Contract.extract u Contract.strict_cleanup Contract.is_absent
             Contract.strict
             (sub u false Script.space_run (of_string " ") t)).
Proof.
  split; [apply extract_data_contract|apply extract_clean_data_contract].
Qed.

(** ** Rules without a group *)

(** C4, as stated, fails: the first bank rule has no capture group and
    still yields a value, the whole match. *)
Lemma groupless_rule_yields_match :
  ngroups (hd Eps Script.bank_patterns) = 0
  /\ Script.find_first_match plain_db (of_string "Silk Bank")
       [hd Eps Script.bank_patterns]
     = Ok (Some (of_string "Silk Bank")).
Proof. split; vm_compute; reflexivity. Qed.

(** C4, amended: for every input text and every rule, the extracted value
    is the clean-up of the first match's capture group when the rule has
    one, and of the whole matched text when it has none (a rule with
    several groups makes [find_first_match] raise as soon as it
    matches). *)
Theorem rule_value (u : unicode_db) (t : text) (pat : regex) :
  Script.find_first_match u t [pat]
  = match search u true pat t with
    | None => Ok None
    | Some m =>
        match ngroups pat with
        | 0 => value <- Script.clean u (IStr (fst m)) ;; Ok (Some value)
        | 1 => value <- Script.clean u (IStr (group_text 1 (snd m))) ;;
               Ok (Some value)
        | _ => Raise AttributeError
        end
    end.
Proof.
  cbn [Script.find_first_match].
  pose proof (findall_first u true pat t) as H.
  destruct (findall u true pat t) as [|i l];
    destruct (search u true pat t) as [m|]; try discriminate H;
    [reflexivity|].
  injection H as ->. unfold item_of.
  destruct (ngroups pat) as [|[|n]]; reflexivity.
Qed.

(** ** Priority order *)

(** C5, as stated, fails: ["by x From:"] matches both the primary sender
    rule and the override rule, the primary result is the empty string,
    and the extractor returns the override's result. *)
Lemma override_beats_empty_primary :
  search plain_db true (hd Eps Script.sender_patterns) (of_string "by x From:")
  <> None
  /\ search plain_db true Script.override_sender_pattern (of_string "by x From:")
     <> None
  /\ Script.find_first_match plain_db (of_string "by x From:")
       Script.sender_patterns = Ok (Some [])
  /\ field_of (Script.extract_data plain_db (of_string "by x From:")) "Sender"
     = Some (Some (of_string "x From")).
Proof.
  repeat split; try (vm_compute; reflexivity);
    vm_compute; intros H; discriminate H.
Qed.

(** C5, amended: rules are tried in priority order and the first rule
    that matches decides the value, the later ones not being consulted;
    [Sender] is the primary rule's result whenever that is a non-empty
    string, and the override rule's result when the primary result is
    absent or empty. *)
Theorem priority_order (u : unicode_db) (t : text) :
  (forall pat rules,
      Script.find_first_match u t (pat :: rules)
      = match search u true pat t with
        | Some _ => Script.find_first_match u t [pat]
        | None => Script.find_first_match u t rules
        end)
  /\ exists primary override,
      Script.find_first_match u t Script.sender_patterns = Ok primary
      /\ Script.find_first_match u t [Script.override_sender_pattern]
         = Ok override
      /\ field_of (Script.extract_data u t) "Sender"
         = Some (if Script.falsy primary then override else primary).
Proof.
  split.
  - intros pat rules. cbn [Script.find_first_match].
    pose proof (findall_first u true pat t) as H.
    destruct (findall u true pat t) as [|i l];
      destruct (search u true pat t) as [m|]; try discriminate H; reflexivity.
  - exists (Contract.first_match u (Contract.shared_cleanup u) "Sender"
              Script.sender_patterns t),
           (Contract.first_match u (Contract.shared_cleanup u) "Sender"
              [Script.override_sender_pattern] t).
    split; [now apply find_first_match_ok|].
    split; [now apply find_first_match_ok|].
    rewrite extract_data_contract. reflexivity.
Qed.

(** ** Extraction raises nothing *)

Lemma first_match_unrecognised u cleanup key rules t :
  unrecognised u rules t -> Contract.first_match u cleanup key rules t = None.
Proof.
  induction 1 as [|pat rules Hpat _ IH]; [reflexivity|].
  cbn [Contract.first_match]. unfold Contract.first_text.
  pose proof (findall_first u true pat t) as H. rewrite Hpat in H.
  destruct (findall u true pat t); [exact IH|discriminate H].
Qed.

(** C7: extraction never raises, it always returns a record; and when no
    rule matches the text, every field of the record is [None].  Both
    scripts. *)
Theorem extraction_total (u : unicode_db) (t : text) :
  (exists data,
      Script.extract_data u t = Ok data
      /\ (unrecognised u script_rules t -> data = Script.empty_record))
  /\ (exists data,
         Script2.extract_clean_data u t = Ok data
         /\ (unrecognised u script2_rules
               (sub u false Script.space_run (of_string " ") t) ->
             data = Script2.empty_record)).
Proof.
  split.
  - eexists. split; [apply extract_data_contract|].
    unfold unrecognised, script_rules. rewrite !Forall_app.
    intros (Hs & Hr & Ha & Hb & Hx & Hf & Hst & Ho).
    unfold Contract.extract, Contract.broad, Contract.field_value.
    cbn [map Contract.f_key Contract.f_rules Contract.f_override].
    rewrite (first_match_unrecognised _ _ Hs), (first_match_unrecognised _ _ Hr),
      (first_match_unrecognised _ _ Ha), (first_match_unrecognised _ _ Hb),
      (first_match_unrecognised _ _ Hx), (first_match_unrecognised _ _ Hf),
      (first_match_unrecognised _ _ Hst), (first_match_unrecognised _ _ Ho).
    reflexivity.
  - eexists. split; [apply extract_clean_data_contract|].
    generalize (sub u false Script.space_run (of_string " ") t). intros t'.
    unfold unrecognised, script2_rules. intros H.
    repeat (apply Forall_cons_iff in H; destruct H as [? H]).
    unfold Contract.extract, Contract.strict, Contract.field_value.
    cbn [map Contract.f_key Contract.f_rules Contract.f_override].
    rewrite !first_match_unrecognised;
      [reflexivity|repeat constructor; assumption..].
Qed.

(** C7 at the text ["Hello world"], which no rule matches. *)
Lemma extraction_total_hello :
  Script.extract_data plain_db (of_string "Hello world")
  = Ok Script.empty_record
  /\ Script2.extract_clean_data plain_db (of_string "Hello world")
     = Ok Script2.empty_record.
Proof.
  destruct (extraction_total plain_db (of_string "Hello world"))
    as [(d1 & E1 & H1) (d2 & E2 & H2)].
  rewrite E1, E2, H1, H2.
  - split; reflexivity.
  - repeat constructor; vm_compute; reflexivity.
  - repeat constructor; vm_compute; reflexivity.
Defined.

(** ** The batch loop *)

Section BatchLoop.

Variable u : unicode_db.
Variables path image : Type.
Variable imread : path -> option image.
Variable binarize : image -> result image.
Variable image_to_string : image -> result text.
Variable basename : path -> text.
Variable extract : unicode_db -> text -> result Script.dict.

Local Abbreviation run := (process u imread binarize image_to_string basename extract).
Local Abbreviation loop :=
  (process_images u imread binarize image_to_string basename extract).
Local Abbreviation rows :=
  (rows_of u imread binarize image_to_string basename extract).
Local Abbreviation lines :=
  (line_of u imread binarize image_to_string basename extract).

Lemma process_images_spec files :
  forall all_data out,
    loop files all_data out
    = (all_data ++ flat_map rows files, out ++ map lines files).
Proof.
  induction files as [|f files IH]; intros all_data out.
  - cbn. now rewrite !app_nil_r.
  - cbn [process_images flat_map map]. unfold rows_of at 1, line_of at 1.
    destruct (run f); rewrite IH, <- !app_assoc; reflexivity.
Qed.

Lemma unreadable_raises f :
  imread f = None -> run f = Raise ValueError.
Proof.
  intros H. unfold process, preprocess_image. now rewrite H.
Qed.

End BatchLoop.

Lemma dict_get_set key v data :
  Script.dict_get key (Script.dict_set key v data) = Some v.
Proof.
  induction data as [|[k w] data IH]; cbn.
  - now rewrite String.eqb_refl.
  - destruct (String.eqb k key) eqn:E; cbn; rewrite ?E, ?String.eqb_refl;
      [reflexivity|exact IH].
Qed.

Section ScriptLoop.

Variable u : unicode_db.
Variables path image : Type.
Variable imread : path -> option image.
Variable binarize : image -> result image.
Variable image_to_string : image -> result text.
Variable basename : path -> text.

Local Abbreviation run :=
  (process u imread binarize image_to_string basename Script.extract_data).
Local Abbreviation loop :=
  (process_images u imread binarize image_to_string basename Script.extract_data).
Local Abbreviation table :=
  (result_table u imread binarize image_to_string basename Script.extract_data).
Local Abbreviation ok := (readable imread binarize image_to_string).

Lemma readable_row f :
  ok f ->
  exists parsed,
    run f = Ok parsed
    /\ Script.dict_get "Image" parsed = Some (Some (basename f)).
Proof.
  intros (img & pre & raw & H1 & H2 & H3).
  unfold process, preprocess_image, extract_text_from_image.
  rewrite H1, H2. cbn [bind]. rewrite H3. cbn [bind].
  rewrite extract_data_contract. cbn [bind].
  eexists. split; [reflexivity|apply dict_get_set].
Qed.

(** C6: in the loop of script.py an image whose processing raises adds no
    row and does not stop the loop, the rows of the others keep their
    order, and an image that cannot be decoded raises; so of five images
    of which the third cannot be decoded, the table has exactly the four
    rows of images 1, 2, 4 and 5, in that order, and the failure is
    printed in its place. *)
Theorem failed_image_skipped :
  (forall files,
      table files
      = flat_map (fun f => match run f with
                           | Ok parsed => [parsed]
                           | Raise _ => []
                           end) files)
  /\ (forall f, imread f = None -> run f = Raise ValueError)
  /\ (forall f1 f2 f3 f4 f5,
         imread f3 = None -> ok f1 -> ok f2 -> ok f4 -> ok f5 ->
         exists r1 r2 r4 r5,
           loop [f1; f2; f3; f4; f5] [] []
           = ([r1; r2; r4; r5],
              [Processed f1; Processed f2; ErrorProcessing f3 ValueError;
               Processed f4; Processed f5])
           /\ map (Script.dict_get "Image") [r1; r2; r4; r5]
              = map (fun f => Some (Some (basename f))) [f1; f2; f4; f5]).
Proof.
  split; [|split].
  - intros files. unfold result_table.
    now rewrite (process_images_spec u imread binarize image_to_string
                   basename Script.extract_data files [] []).
  - apply unreadable_raises.
  - intros f1 f2 f3 f4 f5 H3 H1 H2 H4 H5.
    apply readable_row in H1 as (r1 & E1 & I1).
    apply readable_row in H2 as (r2 & E2 & I2).
    apply readable_row in H4 as (r4 & E4 & I4).
    apply readable_row in H5 as (r5 & E5 & I5).
    pose proof (unreadable_raises u imread binarize image_to_string basename
                  Script.extract_data f3 H3) as E3.
    exists r1, r2, r4, r5. split.
    + cbn [process_images]. rewrite E1, E2, E3, E4, E5. reflexivity.
    + cbn [map]. now rewrite I1, I2, I4, I5.
Qed.

End ScriptLoop.

(** C6 at the five numbered images. *)
Lemma failed_image_skipped_five :
  map (Script.dict_get "Image")
    (result_table plain_db numbered_imread (fun i : text => Ok i)
       (fun i => Ok i) numbered_basename Script.extract_data [1; 2; 3; 4; 5])
  = map (fun n => Some (Some (numbered_basename n))) [1; 2; 4; 5].
Proof.
  destruct (failed_image_skipped plain_db numbered_imread
              (fun i : text => Ok i) (fun i => Ok i) numbered_basename)
    as (_ & _ & H).
  destruct (H 1 2 3 4 5) as (r1 & r2 & r4 & r5 & E & I).
  - reflexivity.
  - exists [1%N], [1%N], [1%N]. repeat split.
  - exists [2%N], [2%N], [2%N]. repeat split.
  - exists [4%N], [4%N], [4%N]. repeat split.
  - exists [5%N], [5%N], [5%N]. repeat split.
  - unfold result_table. rewrite E. exact I.
Defined.


(** * Further properties of the code *)

(** ** What a match consumes and captures *)

Lemma forallb_weaken (p q : char -> bool) l :
  (forall c, p c = true -> q c = true) ->
  forallb p l = true -> forallb q l = true.
Proof.
  intros H. induction l as [|c l IH]; simpl; [reflexivity|].
  rewrite !andb_true_iff. intros [Hc Hl]. split; [now apply H|now apply IH].
Qed.

Lemma infix_self (v : text) : infix v v.
Proof. exists [], []. now rewrite app_nil_r. Qed.

Lemma infix_nil (t : text) : infix [] t.
Proof. now exists [], t. Qed.

Lemma infix_behind (pre v t : text) : infix v t -> infix v (pre ++ t).
Proof. intros (x & y & ->). exists (pre ++ x), y. now rewrite app_assoc. Qed.

Lemma infix_front (v t post : text) : infix v t -> infix v (t ++ post).
Proof.
  intros (x & y & ->). exists x, (y ++ post). now rewrite <- !app_assoc.
Qed.

Lemma infix_trans (a b c : text) : infix a b -> infix b c -> infix a c.
Proof.
  intros (x & y & ->) (x' & y' & ->).
  exists (x' ++ x), (y ++ y'). now rewrite <- !app_assoc.
Qed.

Lemma infix_incl (v t : text) : infix v t -> incl v t.
Proof.
  intros (x & y & ->) c Hc. apply in_or_app. right. apply in_or_app. now left.
Qed.

Lemma firstn_length_app (pre s1 : text) :
  firstn (length (pre ++ s1) - length s1) (pre ++ s1) = pre.
Proof.
  rewrite length_app, Nat.add_sub. rewrite firstn_app, Nat.sub_diag.
  rewrite firstn_all. simpl. apply app_nil_r.
Qed.

Section Trace.

Variable u : unicode_db.
Variable icase : bool.

Lemma rep_trace (A : Type) p s (k : text -> option A) a :
  forall lo hi,
    rep p lo hi s k = Some a ->
    exists pre s1, s = pre ++ s1 /\ k s1 = Some a /\ forallb p pre = true.
Proof.
  induction s as [|c s IH]; intros lo hi; cbn [rep].
  - destruct lo; simpl; [|discriminate]. intros H. now exists [], [].
  - assert (Hstop : rep_stop lo (c :: s) k = Some a ->
                    exists pre s1,
                      c :: s = pre ++ s1 /\ k s1 = Some a /\ forallb p pre = true).
    { destruct lo; simpl; [|discriminate]. intros H. now exists [], (c :: s). }
    destruct (p c) eqn:Hc; [|exact Hstop]. destruct (more hi); [|exact Hstop].
    cbn [andb].
    destruct (rep p (pred lo) (option_map pred hi) s k) eqn:E; [|exact Hstop].
    intros [= ->]. apply IH in E as (pre & s1 & -> & Hk & Hp).
    exists (c :: pre), s1. repeat split; [exact Hk|]. simpl. now rewrite Hc.
Qed.

(** A successful match has consumed a prefix inside the pattern's
    alphabet, and every group it holds afterwards was either held before
    or is a part of the text inside that group's alphabet. *)
Lemma rx_trace (A : Type) r :
  forall s g (k : text -> captures -> option A) a,
    rx u icase r s g k = Some a ->
    exists pre s1 g1,
      s = pre ++ s1
      /\ k s1 g1 = Some a
      /\ forallb (alphabet u icase r) pre = true
      /\ (forall n v,
             group n g1 = Some v ->
             group n g = Some v
             \/ (forallb (group_alphabet u icase n r) v = true /\ infix v s)).
Proof.
  induction r as [|cs|r1 IH1 r2 IH2|r1 IH1 r2 IH2|r1 IH1|cs lo hi|m r1 IH1|];
    intros s g k a; cbn [rx].
  - intros H. exists [], s, g. repeat split; [exact H|]. intros n v; now left.
  - destruct s as [|c s]; [discriminate|].
    destruct (in_cset u icase cs c) eqn:Hc; [|discriminate].
    intros H. exists [c], s, g. repeat split; [exact H| |intros n v; now left].
    simpl. now rewrite Hc.
  - intros H. apply IH1 in H as (p1 & s1 & g1 & -> & H & F1 & C1).
    apply IH2 in H as (p2 & s2 & g2 & -> & H & F2 & C2).
    exists (p1 ++ p2), s2, g2. rewrite <- app_assoc.
    repeat split; [exact H| |].
    + rewrite forallb_app, andb_true_iff. split.
      * revert F1. apply forallb_weaken. intros c Hc. cbn. now rewrite Hc.
      * revert F2. apply forallb_weaken. intros c Hc. cbn.
        now rewrite Hc, orb_true_r.
    + intros n v Hv. apply C2 in Hv as [Hv|[Fv Iv]].
      * apply C1 in Hv as [Hv|[Fv Iv]]; [now left|right]. split; [|exact Iv].
        revert Fv. apply forallb_weaken. intros c Hc. cbn. now rewrite Hc.
      * right. split; [|now apply infix_behind].
        revert Fv. apply forallb_weaken. intros c Hc. cbn.
        now rewrite Hc, orb_true_r.
  - destruct (rx u icase r1 s g k) eqn:E.
    + intros [= ->]. apply IH1 in E as (p1 & s1 & g1 & -> & H & F1 & C1).
      exists p1, s1, g1. repeat split; [exact H| |].
      * revert F1. apply forallb_weaken. intros c Hc. cbn. now rewrite Hc.
      * intros n v Hv. apply C1 in Hv as [Hv|[Fv Iv]]; [now left|right].
        split; [|exact Iv].
        revert Fv. apply forallb_weaken. intros c Hc. cbn. now rewrite Hc.
    + intros H. apply IH2 in H as (p1 & s1 & g1 & -> & H & F1 & C1).
      exists p1, s1, g1. repeat split; [exact H| |].
      * revert F1. apply forallb_weaken. intros c Hc. cbn.
        now rewrite Hc, orb_true_r.
      * intros n v Hv. apply C1 in Hv as [Hv|[Fv Iv]]; [now left|right].
        split; [|exact Iv].
        revert Fv. apply forallb_weaken. intros c Hc. cbn.
        now rewrite Hc, orb_true_r.
  - destruct (rx u icase r1 s g k) eqn:E.
    + intros [= ->]. apply IH1 in E as (p1 & s1 & g1 & -> & H & F1 & C1).
      exists p1, s1, g1. repeat split; [exact H|exact F1|exact C1].
    + intros H. exists [], s, g. repeat split; [exact H|]. intros n v; now left.
  - intros H. apply rep_trace in H as (pre & s1 & -> & H & F).
    exists pre, s1, g. repeat split; [exact H|exact F|]. intros n v; now left.
  - intros H. apply IH1 in H as (p1 & s1 & g1 & -> & H & F1 & C1).
    rewrite firstn_length_app in H.
    exists p1, s1, ((m, p1) :: g1). repeat split; [exact H|exact F1|].
    intros n v. cbn [group group_alphabet]. destruct (Nat.eqb_spec m n) as [->|Hm].
    + intros [= <-]. right. split.
      * revert F1. apply forallb_weaken. intros c Hc. cbn. now rewrite Hc.
      * exists [], s1. reflexivity.
    + intros Hv. apply C1 in Hv as [Hv|[Fv Iv]]; [now left|right].
      split; [|exact Iv]. revert Fv. apply forallb_weaken. intros c Hc.
      cbn. exact Hc.
  - intros H. exists [], s, g. repeat split.
    + destruct s as [|c [|]]; [exact H| |discriminate].
      destruct (c =? 10)%N; [exact H|discriminate].
    + intros n v; now left.
Qed.

Lemma match_at_trace r adv s m :
  match_at u icase r adv s = Some m ->
  exists pre,
    s = pre ++ fst m
    /\ forallb (alphabet u icase r) pre = true
    /\ (forall n v,
           group n (snd m) = Some v ->
           forallb (group_alphabet u icase n r) v = true /\ infix v s).
Proof.
  unfold match_at. intros H.
  apply rx_trace in H as (pre & s1 & g1 & -> & H & F & C).
  destruct (adv && (length s1 =? length (pre ++ s1))); [discriminate|].
  injection H as <-. exists pre. repeat split; [exact F| |];
    (apply C in H as [H|H]; [discriminate H|apply H]).
Qed.

Lemma hit_trace r adv s m :
  match_at u icase r adv s = Some m ->
  infix (fst (hit_of s m)) s
  /\ forallb (alphabet u icase r) (fst (hit_of s m)) = true
  /\ (forall n v,
         group n (snd (hit_of s m)) = Some v ->
         forallb (group_alphabet u icase n r) v = true /\ infix v s).
Proof.
  intros E. apply match_at_trace in E as (pre & E & F & C).
  unfold hit_of. cbn [fst snd]. subst s. rewrite !firstn_length_app.
  split; [|split].
  - now exists [], (fst m).
  - exact F.
  - exact C.
Qed.

(** What [search] returns is a part of the text inside the pattern's
    alphabet, and so is every group, inside its own. *)
Lemma search_trace r t m :
  search u icase r t = Some m ->
  infix (fst m) t
  /\ forallb (alphabet u icase r) (fst m) = true
  /\ (forall n v,
         group n (snd m) = Some v ->
         forallb (group_alphabet u icase n r) v = true /\ infix v t).
Proof.
  induction t as [|c t IH]; cbn [search].
  - destruct (match_at u icase r false []) as [m0|] eqn:E; [|discriminate].
    intros [= <-]. exact (hit_trace r false [] E).
  - destruct (match_at u icase r false (c :: t)) as [m0|] eqn:E.
    + intros [= <-]. exact (hit_trace r false (c :: t) E).
    + intros H. apply IH in H as (I & F & C).
      split; [now apply (infix_behind [c])|]. split; [exact F|].
      intros n v Hv. apply C in Hv as [Fv Iv].
      split; [exact Fv|now apply (infix_behind [c])].
Qed.

End Trace.

(** ** More on the clean-up of the OCR text *)

Lemma lstrip_length s : length (lstrip s) <= length s.
Proof.
  induction s as [|c s IH]; simpl; [lia|]. destruct (is_space c); simpl; lia.
Qed.

Lemma rstrip_length s : length (rstrip s) <= length s.
Proof.
  induction s as [|c s IH]; simpl; [lia|].
  destruct (rstrip s); [destruct (is_space c)|]; simpl in *; lia.
Qed.

Lemma squeeze_length p (c0 : char) s :
  forall b, length (squeeze p [c0] b s) <= length s.
Proof.
  induction s as [|c s IH]; intros b; simpl; [lia|].
  destruct (p c).
  - pose proof (IH true). destruct b; simpl; lia.
  - pose proof (IH false). simpl. lia.
Qed.

Lemma lstrip_visible s : filter visible (lstrip s) = filter visible s.
Proof.
  induction s as [|c s IH]; simpl; [reflexivity|].
  destruct (is_space c) eqn:Hc; [|reflexivity].
  unfold visible at 2. now rewrite Hc, andb_false_r.
Qed.

Lemma rstrip_visible s : filter visible (rstrip s) = filter visible s.
Proof.
  induction s as [|c s IH]; simpl; [reflexivity|].
  destruct (rstrip s) as [|k ks].
  - rewrite <- IH. destruct (is_space c) eqn:Hc; [|reflexivity].
    unfold visible. now rewrite Hc, andb_false_r.
  - cbn [filter] in *. now rewrite IH.
Qed.

Lemma squeeze_visible p s :
  (forall c, p c = true -> visible c = false) ->
  forall b, filter visible (squeeze p [32%N] b s) = filter visible s.
Proof.
  intros Hp. induction s as [|c s IH]; intros b; simpl; [reflexivity|].
  destruct (p c) eqn:Hc.
  - rewrite (Hp c Hc). destruct b; simpl; apply IH.
  - simpl. now rewrite IH.
Qed.

Lemma normalize_visible u raw :
  filter visible (Script.normalize u raw) = filter visible raw.
Proof.
  rewrite normalize_squeeze. unfold strip.
  rewrite rstrip_visible, lstrip_visible, !squeeze_visible; [reflexivity| |].
  - intros c Hc. unfold visible. apply negb_true_iff in Hc. now rewrite Hc.
  - intros c Hc. unfold visible. now rewrite Hc, andb_false_r.
Qed.

(** X1: the clean-up never lengthens the text. *)
Theorem normalize_length (u : unicode_db) (raw : text) :
  length (Script.normalize u raw) <= length raw.
Proof.
  rewrite normalize_squeeze. unfold strip.
  eapply Nat.le_trans; [apply rstrip_length|].
  eapply Nat.le_trans; [apply lstrip_length|].
  eapply Nat.le_trans; [apply squeeze_length|apply squeeze_length].
Qed.

(** X2: the clean-up keeps every visible 7-bit character, in order, and
    adds none. *)
Theorem normalize_keeps_visible (u : unicode_db) (raw : text) :
  filter visible (Script.normalize u raw) = filter visible raw.
Proof. apply normalize_visible. Qed.

(** X3: the cleaned text is empty exactly when the raw text has no
    visible 7-bit character. *)
Theorem normalize_empty (u : unicode_db) (raw : text) :
  Script.normalize u raw = [] <-> filter visible raw = [].
Proof.
  rewrite <- (normalize_visible u raw). split; [now intros ->|].
  pose proof (normalize_seven_bit u raw) as H7.
  assert (Hh : head_not_space (Script.normalize u raw) = true).
  { rewrite normalize_squeeze. unfold strip. apply rstrip_head, lstrip_head. }
  destruct (Script.normalize u raw) as [|c y]; [reflexivity|].
  simpl in Hh. inversion H7 as [|? ? H7c _]; subst.
  simpl. unfold visible. rewrite H7c, Hh. discriminate.
Qed.

Lemma blank_text_records u :
  Script.extract_data u [] = Ok Script.empty_record
  /\ Script2.extract_clean_data u [] = Ok Script2.empty_record.
Proof. split; vm_compute; reflexivity. Qed.

(** X4: when OCR returns nothing visible (only whitespace or characters
    above 127), both extractors return their record with every field
    [None]. *)
Theorem blank_ocr_all_absent (u : unicode_db) (raw : text) :
  filter visible raw = [] ->
  Script.extract_data u (Script.normalize u raw) = Ok Script.empty_record
  /\ Script2.extract_clean_data u (Script.normalize u raw)
     = Ok Script2.empty_record.
Proof.
  intros H. assert (E : Script.normalize u raw = []).
  { rewrite <- (normalize_visible u raw) in H.
    pose proof (normalize_seven_bit u raw) as H7.
    assert (Hh : head_not_space (Script.normalize u raw) = true).
    { rewrite normalize_squeeze. unfold strip. apply rstrip_head, lstrip_head. }
    destruct (Script.normalize u raw) as [|c y]; [reflexivity|].
    simpl in Hh. inversion H7 as [|? ? H7c _]; subst.
    simpl in H. unfold visible in H. rewrite H7c, Hh in H. discriminate. }
  rewrite E. apply blank_text_records.
Qed.

(** X4 at a form feed between two non-ASCII glyphs. *)
Lemma blank_ocr_all_absent_form_feed :
  Script.extract_data plain_db
    (Script.normalize plain_db [8364; 12; 8364; 10]%N)
  = Ok Script.empty_record
  /\ Script2.extract_clean_data plain_db
       (Script.normalize plain_db [8364; 12; 8364; 10]%N)
     = Ok Script2.empty_record.
Proof. apply (blank_ocr_all_absent plain_db). reflexivity. Defined.

(** ** Values are parts of the text *)

Lemma lstrip_infix s : infix (lstrip s) s.
Proof.
  induction s as [|c s IH]; simpl; [apply infix_nil|].
  destruct (is_space c); [apply (infix_behind [c]), IH|apply infix_self].
Qed.

Lemma prefix_cons (c : char) (v s : text) :
  (exists y, s = v ++ y) -> exists y, c :: s = (c :: v) ++ y.
Proof. intros (y & ->). now exists y. Qed.

Lemma rstrip_prefix s : exists y, s = rstrip s ++ y.
Proof.
  induction s as [|c s IH]; simpl; [now exists []|].
  destruct (rstrip s) as [|k ks].
  - destruct (is_space c); [now exists (c :: s)|now exists s].
  - now apply prefix_cons.
Qed.

Lemma first_line_prefix s : exists y, s = first_line s ++ y.
Proof.
  induction s as [|c s IH]; simpl; [now exists []|].
  destruct (c =? 10)%N; [now exists (c :: s)|now apply prefix_cons].
Qed.

Lemma drop_trailing_prefix p s : exists y, s = drop_trailing p s ++ y.
Proof.
  induction s as [|c s IH]; [now exists []|]. cbn [drop_trailing].
  destruct (forallb p (c :: s)); [now exists (c :: s)|now apply prefix_cons].
Qed.

Lemma prefix_infix (v s : text) : (exists y, s = v ++ y) -> infix v s.
Proof. intros (y & ->). now exists [], y. Qed.

Lemma strip_infix s : infix (strip s) s.
Proof.
  unfold strip. eapply infix_trans; [|apply lstrip_infix].
  apply prefix_infix, rstrip_prefix.
Qed.

Lemma shared_cleanup_infix u key v : infix (Contract.shared_cleanup u key v) v.
Proof.
  rewrite shared_cleanup_eq.
  eapply infix_trans; [apply prefix_infix, drop_trailing_prefix|].
  eapply infix_trans; [apply strip_infix|].
  eapply infix_trans; [apply prefix_infix, first_line_prefix|].
  apply strip_infix.
Qed.

Section ValueLemmas.

Variable u : unicode_db.

(** What a rule hands to the clean-up comes from [search]: the whole
    match, group 1, or the empty string of an unset group. *)
Lemma first_text_source pat t v :
  Contract.first_text u pat t = Some v ->
  exists m,
    search u true pat t = Some m
    /\ (v = fst m \/ group 1 (snd m) = Some v \/ v = []).
Proof.
  unfold Contract.first_text.
  pose proof (findall_first u true pat t) as H.
  destruct (findall u true pat t) as [|i l]; [discriminate|].
  cbn [hd_error] in H.
  destruct (search u true pat t) as [m|]; [|discriminate].
  injection H as ->. unfold item_of, group_text.
  destruct (ngroups pat) as [|[|n]]; [| |discriminate].
  - intros [= <-]. exists m. split; [reflexivity|now left].
  - destruct (group 1 (snd m)) as [w|] eqn:Hg; intros [= <-]; exists m;
      (split; [reflexivity|right]); [now left|now right].
Qed.

Lemma first_text_infix pat t v :
  Contract.first_text u pat t = Some v -> infix v t.
Proof.
  intros H. apply first_text_source in H as (m & Hs & [->|[Hg| ->]]).
  - now apply search_trace in Hs.
  - apply search_trace in Hs as (_ & _ & C). now apply C in Hg.
  - apply infix_nil.
Qed.

Variable cleanup : string -> text -> text.
Variable unset : option text -> bool.

Lemma first_match_source key rules t v :
  Contract.first_match u cleanup key rules t = Some v ->
  exists pat raw,
    In pat rules /\ Contract.first_text u pat t = Some raw
    /\ v = cleanup key raw.
Proof.
  induction rules as [|pat rules IH]; cbn [Contract.first_match];
    [discriminate|].
  destruct (Contract.first_text u pat t) as [raw|] eqn:E.
  - intros [= <-]. exists pat, raw. repeat split; [now left|exact E].
  - intros H. apply IH in H as (p & raw & Hin & Hp & Hv).
    exists p, raw. repeat split; [now right|exact Hp|exact Hv].
Qed.

(** A value of the record comes from one rule of its field, or from the
    field's override. *)
Lemma extract_source reg t key v :
  Script.dict_get key (Contract.extract u cleanup unset reg t) = Some (Some v) ->
  exists f pat raw,
    In f reg /\ Contract.f_key f = key
    /\ (In pat (Contract.f_rules f) \/ Contract.f_override f = Some pat)
    /\ Contract.first_text u pat t = Some raw
    /\ v = cleanup key raw.
Proof.
  induction reg as [|f reg IH]; [discriminate|].
  cbn [Contract.extract map Script.dict_get].
  destruct (String.eqb_spec (Contract.f_key f) key) as [Hk|Hk].
  - intros [= H]. unfold Contract.field_value in H. rewrite Hk in H.
    assert (Hr : forall rules,
               Contract.first_match u cleanup key rules t = Some v ->
               (forall pat, In pat rules ->
                            In pat (Contract.f_rules f)
                            \/ Contract.f_override f = Some pat) ->
               exists f0 pat raw,
                 In f0 (f :: reg) /\ Contract.f_key f0 = key
                 /\ (In pat (Contract.f_rules f0)
                     \/ Contract.f_override f0 = Some pat)
                 /\ Contract.first_text u pat t = Some raw
                 /\ v = cleanup key raw).
    { intros rules Hm Hsub.
      apply first_match_source in Hm as (pat & raw & Hin & Hp & Hv).
      exists f, pat, raw. repeat split; auto. now left. }
    destruct (Contract.f_override f) as [o|] eqn:Ho.
    + destruct (unset _).
      * apply (Hr _ H). intros pat [<-|[]]. now right.
      * apply (Hr _ H). intros pat Hin. now left.
    + apply (Hr _ H). intros pat Hin. now left.
  - intros H. apply IH in H as (f0 & pat & raw & Hin & Hrest).
    exists f0, pat, raw. split; [now right|exact Hrest].
Qed.

End ValueLemmas.

(** X5: every value [extract_data] returns is a contiguous part of the
    input text: the extractor never invents or reorders characters. *)
Theorem values_are_parts (u : unicode_db) (t : text) (key : string) (v : text) :
  field_of (Script.extract_data u t) key = Some (Some v) -> infix v t.
Proof.
  rewrite extract_data_contract. cbn [field_of]. intros H.
  apply extract_source in H as (f & pat & raw & _ & _ & _ & Hraw & ->).
  eapply infix_trans; [apply shared_cleanup_infix|].
  now apply first_text_infix in Hraw.
Qed.

(** X5 at the amount of the worked example. *)
Lemma values_are_parts_amount :
  infix (of_string "1,250.00") example_receipt.
Proof.
  apply (values_are_parts plain_db example_receipt "Amount").
  vm_compute. reflexivity.
Defined.

(** X6: every value [extract_clean_data] returns, except [Total_Amount],
    is a contiguous part of the text once its whitespace is collapsed;
    [Total_Amount] is such a part with its commas taken out and then
    trimmed. *)
Theorem clean_values_are_parts (u : unicode_db) (t : text) (key : string)
        (v : text) :
  field_of (Script2.extract_clean_data u t) key = Some (Some v) ->
  exists raw,
    infix raw (sub u false Script.space_run (of_string " ") t)
    /\ v = if String.eqb key "Total_Amount"
           then strip (remove_commas raw) else strip raw.
Proof.
  rewrite extract_clean_data_contract. cbn [field_of]. intros H.
  apply extract_source in H as (f & pat & raw & _ & _ & _ & Hraw & ->).
  exists raw. split; [now apply first_text_infix in Hraw|reflexivity].
Qed.

(** X6 at an amount with a thousands separator. *)
Lemma clean_values_are_parts_amount :
  exists raw,
    infix raw (sub plain_db false Script.space_run (of_string " ")
                 (of_string "Amount 1,250.00"))
    /\ of_string "1250.00" = strip (remove_commas raw).
Proof.
  apply (clean_values_are_parts plain_db (of_string "Amount 1,250.00")
           "Total_Amount").
  vm_compute. reflexivity.
Defined.

(** ** One-line text *)

Lemma run_all p (s : text) :
  (forall c, In c s -> p c = true) -> run p s = length s.
Proof.
  induction s as [|c s IH]; intros H; simpl; [reflexivity|].
  rewrite (H c (or_introl eq_refl)). f_equal. apply IH.
  intros x Hx. apply H. now right.
Qed.

Lemma no_newline_app (a b : text) : no_newline (a ++ b) -> no_newline b.
Proof. intros H Hb. apply H, in_or_app. now right. Qed.

Lemma suffix_behind (pre v s : text) : is_suffix v s -> is_suffix v (pre ++ s).
Proof. intros (x & ->). exists (pre ++ x). now rewrite app_assoc. Qed.

Lemma normalize_no_newline u raw : no_newline (Script.normalize u raw).
Proof.
  intros H.
  pose proof (@single_spaced_blank _ _ _ (normalize_single_spaced u raw) H
                eq_refl) as E.
  discriminate E.
Qed.

Section RunsToEnd.

Variable u : unicode_db.
Variable icase : bool.

(** On text without a newline, a pattern that ends in group 1 around
    [.*] matches up to the end of the text, and so does the group. *)
Lemma runs_to_end_rest r :
  runs_to_end r = true ->
  forall s g s1 g1,
    no_newline s ->
    rx u icase r s g (fun s' g' => Some (s', g')) = Some (s1, g1) ->
    s1 = [] /\ exists v, group 1 g1 = Some v /\ is_suffix v s.
Proof.
  induction r as [|cs|r1 IH1 r2 IH2|r1 IH1 r2 IH2|r1 IH1|cs lo hi|m r1 IH1|];
    cbn [runs_to_end]; try discriminate.
  - intros Hr s g s1 g1 Hn H. cbn [rx] in H.
    apply rx_trace in H as (pre & s' & g' & -> & H & _ & _).
    apply (IH2 Hr) in H as (-> & v & Hv & Hs);
      [|now apply no_newline_app in Hn].
    split; [reflexivity|]. exists v. split; [exact Hv|now apply suffix_behind].
  - rewrite andb_true_iff. intros [Ha Hb] s g s1 g1 Hn H. cbn [rx] in H.
    destruct (rx u icase r1 s g (fun s' g' => Some (s', g'))) eqn:E.
    + injection H as ->. now apply (IH1 Ha) in E.
    + now apply (IH2 Hb) in H.
  - destruct m as [|[|m]]; try discriminate.
    destruct r1 as [| | | | |cs lo hi| |]; try discriminate.
    destruct cs; try discriminate. destruct lo; try discriminate.
    destruct hi; try discriminate.
    intros _ s g s1 g1 Hn H. cbn [rx] in H.
    rewrite (rep_takes_run (in_cset u icase CAny)
               (fun s' => (s', (1, firstn (length s - length s') s) :: g))) in H.
    cbn [Nat.leb] in H. rewrite run_all, skipn_all in H.
    + injection H as <- <-. split; [reflexivity|].
      cbn [length group Nat.eqb]. rewrite Nat.sub_0_r, firstn_all.
      exists s. split; [reflexivity|now exists []].
    + intros c Hc. cbn. apply negb_true_iff, N.eqb_neq. intros ->. now apply Hn.
Qed.

Lemma runs_to_end_search r t m :
  runs_to_end r = true -> no_newline t ->
  search u icase r t = Some m ->
  is_suffix (fst m) t /\ exists v, group 1 (snd m) = Some v /\ is_suffix v t.
Proof.
  intros Hr. induction t as [|c t IH]; intros Hn; cbn [search].
  - destruct (match_at u icase r false []) as [[s1 g1]|] eqn:E; [|discriminate].
    intros [= <-]. unfold match_at in E. cbn [andb] in E.
    apply (runs_to_end_rest r Hr) in E as (-> & v & Hv & Hs); [|exact Hn].
    unfold hit_of. cbn [fst snd length Nat.sub firstn].
    split; [now exists []|]. now exists v.
  - destruct (match_at u icase r false (c :: t)) as [[s1 g1]|] eqn:E.
    + intros [= <-]. unfold match_at in E. cbn [andb] in E.
      apply (runs_to_end_rest r Hr) in E as (-> & v & Hv & Hs); [|exact Hn].
      unfold hit_of. cbn [fst snd]. rewrite Nat.sub_0_r, firstn_all.
      split; [now exists []|]. now exists v.
    + intros H. apply IH in H as (Hm & v & Hv & Hs).
      * split; [now apply (suffix_behind [c])|].
        exists v. split; [exact Hv|now apply (suffix_behind [c])].
      * intros Hin. apply Hn. now right.
Qed.

End RunsToEnd.

Lemma run_on_capture u pat t raw :
  runs_to_end pat = true -> no_newline t ->
  Contract.first_text u pat t = Some raw ->
  raw = [] \/ is_suffix raw t.
Proof.
  intros Hr Hn H. apply first_text_source in H as (m & Hs & Hraw).
  apply (runs_to_end_search u true pat Hr Hn) in Hs as (Hm & v & Hv & Hsv).
  destruct Hraw as [->|[Hg| ->]]; [now right| |now left].
  right. rewrite Hv in Hg. now injection Hg as <-.
Qed.

(** X7: on text without a newline, as the OCR clean-up always produces,
    a [Sender] or [Receiver] value is the clean-up of everything from
    some point of the text to its end: the value never stops at the next
    label. *)
Theorem sender_receiver_run_to_end (u : unicode_db) (t : text) (key : string)
        (v : text) :
  no_newline t ->
  key = "Sender"%string \/ key = "Receiver"%string ->
  field_of (Script.extract_data u t) key = Some (Some v) ->
  exists rest,
    is_suffix rest t /\ v = Contract.shared_cleanup u key rest.
Proof.
  intros Hn Hkey. rewrite extract_data_contract. cbn [field_of]. intros H.
  apply extract_source in H as (f & pat & raw & Hf & Hk & Hpat & Hraw & ->).
  assert (Hr : runs_to_end pat = true).
  { unfold Contract.broad in Hf. cbn [In] in Hf.
    destruct Hkey as [-> | ->];
      repeat (destruct Hf as [<-|Hf]; [try discriminate Hk|]);
      try contradiction;
      cbn [Contract.f_rules Contract.f_override] in Hpat;
      (destruct Hpat as [[<-|[]]|[= <-]] || destruct Hpat as [[<-|[]]|Hpat]);
      try reflexivity; try discriminate. }
  destruct (run_on_capture u pat Hr Hn Hraw) as [->|Hs].
  - exists []. split; [exists t; now rewrite app_nil_r|reflexivity].
  - now exists raw.
Qed.

(** X7 at the sender of the worked example. *)
Lemma sender_receiver_run_to_end_example :
  exists rest,
    is_suffix rest example_receipt
    /\ of_string "Alice Khan To: Bob Shah Amount: Rs. 1,250.00 Transaction ID: TXN99123 Transaction Successful"
       = Contract.shared_cleanup plain_db "Sender" rest.
Proof.
  apply (@sender_receiver_run_to_end plain_db example_receipt "Sender"%string).
  - intros H. vm_compute in H. repeat (destruct H as [H|H]; [discriminate H|]).
    exact H.
  - now left.
  - vm_compute. reflexivity.
Defined.

(** X8: on the text [extract_text_from_image] returns, the newline
    truncation of [find_first_match] never fires: every value of
    [extract_data] is a part of that text, trimmed and with its trailing
    punctuation dropped. *)
Theorem pipeline_values (u : unicode_db) (raw : text) (key : string) (v : text) :
  field_of (Script.extract_data u (Script.normalize u raw)) key = Some (Some v) ->
  exists captured,
    infix captured (Script.normalize u raw)
    /\ first_line (strip captured) = strip captured
    /\ v = drop_trailing is_trim_punct (strip captured).
Proof.
  rewrite extract_data_contract. cbn [field_of]. intros H.
  apply extract_source in H as (f & pat & cap & _ & _ & _ & Hcap & ->).
  apply first_text_infix in Hcap. exists cap. split; [exact Hcap|].
  assert (E : first_line (strip cap) = strip cap).
  { assert (Hn : no_newline (strip cap)).
    { intros Hin. apply strip_incl, (infix_incl Hcap) in Hin.
      now apply normalize_no_newline in Hin. }
    revert Hn. generalize (strip cap). intros s. unfold no_newline.
    induction s as [|c s IH]; intros Hn; simpl; [reflexivity|].
    destruct (N.eqb_spec c 10) as [->|_]; [exfalso; apply Hn; now left|].
    f_equal. apply IH. intros Hin. apply Hn. now right. }
  split; [exact E|]. rewrite shared_cleanup_eq. now rewrite E, strip_idem.
Qed.

(** X8 at the amount of the worked example. *)
Lemma pipeline_values_amount :
  exists captured,
    infix captured (Script.normalize plain_db example_receipt)
    /\ first_line (strip captured) = strip captured
    /\ of_string "1,250.00" = drop_trailing is_trim_punct (strip captured).
Proof.
  apply (@pipeline_values plain_db example_receipt "Amount"%string).
  vm_compute. reflexivity.
Defined.

(** ** Overlapping labels *)

Section Alternatives.

Variable u : unicode_db.
Variable icase : bool.

Lemma alt_intro (A : Type) r rs s g (k : text -> captures -> option A) :
  In r rs -> rx u icase r s g k <> None -> rx u icase (alt rs) s g k <> None.
Proof.
  induction rs as [|a rs IH]; [intros []|].
  destruct rs as [|b rs].
  - intros [<-|[]]. exact (fun H => H).
  - intros Hin Hr. change (alt (a :: b :: rs)) with (Alt a (alt (b :: rs))).
    cbn [rx]. destruct (rx u icase a s g k) eqn:E; [discriminate|].
    destruct Hin as [<-|Hin]; [congruence|now apply IH].
Qed.

Lemma alt_elim (A : Type) rs s g (k : text -> captures -> option A) :
  rs <> [] -> rx u icase (alt rs) s g k <> None ->
  exists r, In r rs /\ rx u icase r s g k <> None.
Proof.
  induction rs as [|a rs IH]; [congruence|]. intros _.
  destruct rs as [|b rs].
  - intros H. exists a. split; [now left|exact H].
  - change (alt (a :: b :: rs)) with (Alt a (alt (b :: rs))). cbn [rx].
    destruct (rx u icase a s g k) eqn:E.
    + intros _. exists a. split; [now left|congruence].
    + intros H. destruct (IH ltac:(discriminate) H) as (r & Hin & Hr).
      exists r. split; [now right|exact Hr].
Qed.

(** A pattern whose leading alternatives include those of another, with
    the same continuation, matches wherever the other does. *)
Lemma wider_alternatives_match rs1 rs2 rest adv s :
  rs1 <> [] -> incl rs1 rs2 ->
  match_at u icase (Cat (alt rs1) rest) adv s <> None ->
  match_at u icase (Cat (alt rs2) rest) adv s <> None.
Proof.
  unfold match_at. cbn [rx]. intros Hne Hincl H.
  apply alt_elim in H as (r & Hin & Hr); [|exact Hne].
  apply (alt_intro r); [now apply Hincl|exact Hr].
Qed.

Lemma wider_alternatives_search rs1 rs2 rest t :
  rs1 <> [] -> incl rs1 rs2 ->
  search u icase (Cat (alt rs1) rest) t <> None ->
  search u icase (Cat (alt rs2) rest) t <> None.
Proof.
  intros Hne Hincl. induction t as [|c t IH]; cbn [search].
  - destruct (match_at u icase (Cat (alt rs1) rest) false []) eqn:E;
      [|congruence]. intros _.
    pose proof (wider_alternatives_match rest false [] Hne Hincl) as H.
    rewrite E in H.
    destruct (match_at u icase (Cat (alt rs2) rest) false []);
      [discriminate|]. now apply H.
  - intros H1.
    destruct (match_at u icase (Cat (alt rs2) rest) false (c :: t)) eqn:E2;
      [discriminate|].
    destruct (match_at u icase (Cat (alt rs1) rest) false (c :: t)) eqn:E1.
    + pose proof (wider_alternatives_match rest false (c :: t) Hne Hincl) as H.
      rewrite E1, E2 in H. exfalso. now apply H.
    + now apply IH.
Qed.

End Alternatives.

Lemma reference_kept_by_transaction u t :
  search u true (hd Eps Script.reference_patterns) t <> None ->
  search u true (hd Eps Script.transaction_id_patterns) t <> None.
Proof.
  apply (wider_alternatives_search u true
           (rs1 := [lit "Ref"; lit "Ref#"; lit "Reference"])
           (rs2 := [ lit "Transaction ID";
                     cat [lit "Trans"; maybe (chars "."); lit " ID"];
                     lit "Tx ID"; lit "Ref#"; lit "Reference"; lit "Ref" ])).
  - discriminate.
  - intros r [<-|[<-|[<-|[]]]]; cbn [In]; tauto.
Qed.

Lemma first_match_one_found u cleanup key pat t :
  ngroups pat <= 1 ->
  Contract.first_match u cleanup key [pat] t <> None
  <-> search u true pat t <> None.
Proof.
  intros Hn. rewrite first_match_search by exact Hn.
  destruct (search u true pat t); cbn [Contract.first_match];
    split; intros H; first [discriminate|exfalso; now apply H].
Qed.

(** X9: whenever [extract_data] finds a [Reference_Number] it also finds
    a [Transaction_ID]: every label of the reference rule is a label of
    the transaction rule. *)
Theorem reference_implies_transaction (u : unicode_db) (t : text) (v : text) :
  field_of (Script.extract_data u t) "Reference_Number" = Some (Some v) ->
  exists w, field_of (Script.extract_data u t) "Transaction_ID" = Some (Some w).
Proof.
  rewrite extract_data_contract. cbn [field_of].
  change (Script.dict_get "Reference_Number"
            (Contract.extract u (Contract.shared_cleanup u) Script.falsy
               Contract.broad t))
    with (Some (Contract.first_match u (Contract.shared_cleanup u)
                  "Reference_Number" Script.reference_patterns t)).
  change (Script.dict_get "Transaction_ID"
            (Contract.extract u (Contract.shared_cleanup u) Script.falsy
               Contract.broad t))
    with (Some (Contract.first_match u (Contract.shared_cleanup u)
                  "Transaction_ID" Script.transaction_id_patterns t)).
  intros H.
  assert (Hr : Contract.first_match u (Contract.shared_cleanup u)
                 "Reference_Number" Script.reference_patterns t <> None)
    by (intros E; rewrite E in H; discriminate H).
  clear H.
  apply (first_match_one_found u _ _ (hd Eps Script.reference_patterns) t) in Hr;
    [|cbn; lia].
  apply reference_kept_by_transaction in Hr.
  apply (first_match_one_found u (Contract.shared_cleanup u) "Transaction_ID"
           (hd Eps Script.transaction_id_patterns) t) in Hr; [|cbn; lia].
  change [hd Eps Script.transaction_id_patterns]
    with Script.transaction_id_patterns in Hr.
  destruct (Contract.first_match u (Contract.shared_cleanup u) "Transaction_ID"
              Script.transaction_id_patterns t) as [w|];
    [now exists w|exfalso; now apply Hr].
Qed.

(** X9 at a reference line: the two fields need not agree. *)
Lemma reference_implies_transaction_example :
  exists w,
    field_of (Script.extract_data plain_db (of_string "Reference: 5"))
      "Transaction_ID" = Some (Some w).
Proof.
  apply (@reference_implies_transaction plain_db (of_string "Reference: 5")
           (of_string "erence")).
  vm_compute. reflexivity.
Defined.

(** ** The characters of an amount *)

Lemma seven_bit_in_range c :
  is_7bit c = true -> In c (map N.of_nat (seq 0 128)).
Proof.
  unfold is_7bit. intros H. apply N.ltb_lt in H.
  rewrite <- (N2Nat.id c). apply in_map, in_seq. lia.
Qed.

Lemma seven_bit_infix (v t : text) : infix v t -> seven_bit t -> seven_bit v.
Proof.
  unfold seven_bit. intros Hi Ht. apply Forall_forall. intros c Hc.
  apply (infix_incl Hi) in Hc. revert c Hc. now apply Forall_forall.
Qed.

Lemma forallb_infix (p : char -> bool) (v t : text) :
  infix v t -> forallb p t = true -> forallb p v = true.
Proof.
  intros Hi Ht. apply forallb_forall. intros c Hc.
  apply (infix_incl Hi) in Hc. revert c Hc. now apply forallb_forall.
Qed.

Lemma first_text_rule u pat t v :
  Contract.first_text u pat t = Some v ->
  exists m, search u true pat t = Some m /\ v = rule_text pat m.
Proof.
  unfold Contract.first_text.
  pose proof (findall_first u true pat t) as H.
  destruct (findall u true pat t) as [|i l]; [discriminate|].
  cbn [hd_error] in H.
  destruct (search u true pat t) as [m|]; [|discriminate].
  injection H as ->. unfold item_of, rule_text.
  destruct (ngroups pat) as [|[|n]]; [| |discriminate];
    intros [= <-]; now exists m.
Qed.

(** On 7-bit text the raw value of a one-group rule has only characters
    that the group admits; [allowed] is checked on the 128 code points. *)
Lemma group1_chars u pat t raw (allowed : char -> bool) :
  ngroups pat = 1 -> seven_bit t ->
  forallb (fun c => implb (group_alphabet u true 1 pat c) (allowed c))
    (map N.of_nat (seq 0 128)) = true ->
  Contract.first_text u pat t = Some raw ->
  forallb allowed raw = true.
Proof.
  intros Hn H7 Hall H. apply first_text_rule in H as (m & Hs & ->).
  unfold rule_text, group_text. rewrite Hn.
  destruct (group 1 (snd m)) as [v|] eqn:Hg; [|reflexivity].
  apply search_trace in Hs as (_ & _ & C). apply C in Hg as [Fv Iv].
  apply forallb_forall. intros c Hc.
  assert (H7c : is_7bit c = true).
  { pose proof (seven_bit_infix Iv H7) as Hv.
    revert c Hc. now apply Forall_forall. }
  rewrite forallb_forall in Fv, Hall.
  specialize (Hall c (seven_bit_in_range c H7c)). rewrite (Fv c Hc) in Hall.
  exact Hall.
Qed.

Lemma ends_in_digit v :
  forallb amount_char v = true ->
  ends_outside is_trim_punct v = true ->
  ends_outside (fun c => negb (ascii_digit c)) v = true.
Proof.
  unfold ends_outside. intros Ha He.
  destruct (rev v) as [|c l] eqn:E; [reflexivity|].
  assert (Hc : amount_char c = true).
  { rewrite forallb_forall in Ha. apply Ha, in_rev. rewrite E. now left. }
  unfold amount_char, is_trim_punct in *.
  destruct (ascii_digit c); [reflexivity|].
  destruct (c =? 44)%N, (c =? 46)%N; simpl in *; discriminate.
Qed.

(** X10: on 7-bit text, an [Amount] of [extract_data] holds only digits,
    commas and full stops, and is empty or ends in a digit. *)
Theorem amount_characters (u : unicode_db) (t : text) (v : text) :
  seven_bit t ->
  field_of (Script.extract_data u t) "Amount" = Some (Some v) ->
  forallb amount_char v = true
  /\ ends_outside (fun c => negb (ascii_digit c)) v = true.
Proof.
  intros H7. rewrite extract_data_contract. cbn [field_of]. intros H.
  apply extract_source in H as (f & pat & raw & Hf & Hk & Hpat & Hraw & ->).
  assert (Hchars : forallb amount_char raw = true).
  { unfold Contract.broad in Hf. cbn [In] in Hf.
    repeat (destruct Hf as [<-|Hf]; [try discriminate Hk|]);
      [|contradiction].
    cbn [Contract.f_rules Contract.f_override] in Hpat.
    destruct Hpat as [[<-|[<-|[]]]|Hpat]; [| |discriminate Hpat];
      (refine (@group1_chars u _ t raw amount_char _ H7 _ Hraw);
       [reflexivity|vm_compute; reflexivity]). }
  assert (Hv : forallb amount_char
                 (Contract.shared_cleanup u "Amount" raw) = true).
  { revert Hchars. apply forallb_infix, shared_cleanup_infix. }
  split; [exact Hv|]. apply ends_in_digit; [exact Hv|].
  apply shared_cleanup_shape.
Qed.

(** X10 at the worked example. *)
Lemma amount_characters_example :
  forallb amount_char (of_string "1,250.00") = true
  /\ ends_outside (fun c => negb (ascii_digit c)) (of_string "1,250.00") = true.
Proof.
  apply (@amount_characters plain_db example_receipt).
  - repeat constructor.
  - vm_compute. reflexivity.
Defined.

Lemma remove_commas_digits v :
  forallb amount_char v = true ->
  forallb (fun c => ascii_digit c || (c =? 46)%N) (remove_commas v) = true.
Proof.
  unfold remove_commas. induction v as [|c v IH]; simpl; [reflexivity|].
  rewrite andb_true_iff. intros [Hc Hv]. unfold amount_char in Hc.
  destruct (c =? 44)%N eqn:E; simpl; [now apply IH|].
  rewrite IH by exact Hv. rewrite orb_false_r in Hc. now rewrite Hc.
Qed.

(** X11: on 7-bit text, a [Total_Amount] of [extract_clean_data] holds
    only digits and full stops: the commas are gone. *)
Theorem total_amount_characters (u : unicode_db) (t : text) (v : text) :
  seven_bit t ->
  field_of (Script2.extract_clean_data u t) "Total_Amount" = Some (Some v) ->
  forallb (fun c => ascii_digit c || (c =? 46)%N) v = true.
Proof.
  intros H7. rewrite extract_clean_data_contract. cbn [field_of]. intros H.
  apply extract_source in H as (f & pat & raw & Hf & Hk & Hpat & Hraw & ->).
  assert (Hchars : forallb amount_char raw = true).
  { unfold Contract.strict in Hf. cbn [In] in Hf.
    repeat (destruct Hf as [<-|Hf]; [try discriminate Hk|]);
      [|contradiction].
    cbn [Contract.f_rules Contract.f_override] in Hpat.
    destruct Hpat as [[<-|[]]|Hpat]; [|discriminate Hpat].
    refine (@group1_chars u _ _ raw amount_char _ _ _ Hraw).
    - reflexivity.
    - unfold seven_bit, Script.space_run. rewrite sub_plus.
      apply squeeze_Forall; [repeat constructor|].
      intros c Hc _. revert c Hc. now apply Forall_forall.
    - vm_compute. reflexivity. }
  unfold Contract.strict_cleanup. cbn [String.eqb Ascii.eqb Bool.eqb andb].
  revert Hchars. intros Hchars. apply remove_commas_digits in Hchars.
  revert Hchars. apply forallb_infix, strip_infix.
Qed.

(** X11 at an amount with a thousands separator. *)
Lemma total_amount_characters_example :
  forallb (fun c => ascii_digit c || (c =? 46)%N) (of_string "1250.00") = true.
Proof.
  apply (@total_amount_characters plain_db (of_string "Amount 1,250.00")).
  - repeat constructor.
  - vm_compute. reflexivity.
Defined.

(** ** The two scripts in one pipeline *)

(** X12: on the text [extract_text_from_image] returns, the whitespace
    collapse at the head of [extract_clean_data] changes nothing, so the
    record is the strict registry applied to that very text. *)
Theorem second_collapse_is_identity (u : unicode_db) (raw : text) :
  sub u false Script.space_run (of_string " ") (Script.normalize u raw)
  = Script.normalize u raw
  /\ Script2.extract_clean_data u (Script.normalize u raw)
     = Ok (Contract.extract u Contract.strict_cleanup Contract.is_absent
             Contract.strict (Script.normalize u raw)).
Proof.
  assert (E : sub u false Script.space_run (of_string " ")
                (Script.normalize u raw) = Script.normalize u raw).
  { unfold Script.space_run. rewrite sub_plus.
    change (in_cset u false CSpace) with is_space.
    apply squeeze_single_spaced_id, normalize_single_spaced. }
  split; [exact E|]. now rewrite extract_clean_data_contract, E.
Qed.

(** ** The loop and the table *)

Section MainLoop.

Variable u : unicode_db.
Variables path image : Type.
Variable imread : path -> option image.
Variable binarize : image -> result image.
Variable image_to_string : image -> result text.
Variable basename : path -> text.

Local Abbreviation run1 :=
  (process u imread binarize image_to_string basename Script.extract_data).
Local Abbreviation run2 :=
  (process u imread binarize image_to_string basename Script2.extract_clean_data).
Local Abbreviation table1 :=
  (result_table u imread binarize image_to_string basename Script.extract_data).
Local Abbreviation table2 :=
  (result_table u imread binarize image_to_string basename
     Script2.extract_clean_data).
Local Abbreviation ok := (readable imread binarize image_to_string).

Lemma process_shape extract f row :
  process u imread binarize image_to_string basename extract f = Ok row ->
  ok f
  /\ exists raw parsed,
      extract u (Script.normalize u raw) = Ok parsed
      /\ row = Script.dict_set "Image" (Some (basename f)) parsed.
Proof.
  unfold process, preprocess_image, extract_text_from_image, readable.
  destruct (imread f) as [img|] eqn:E1; [|discriminate].
  destruct (binarize img) as [pre|] eqn:E2; [|discriminate]. cbn [bind].
  destruct (image_to_string pre) as [raw|] eqn:E3; [|discriminate]. cbn [bind].
  destruct (extract u (Script.normalize u raw)) as [parsed|] eqn:E;
    [|discriminate]. cbn [bind].
  intros [= <-]. split; [now exists img, pre, raw|now exists raw, parsed].
Qed.

Lemma readable_row2 f :
  ok f -> exists parsed, run2 f = Ok parsed.
Proof.
  intros (img & pre & raw & H1 & H2 & H3).
  unfold process, preprocess_image, extract_text_from_image.
  rewrite H1, H2. cbn [bind]. rewrite H3. cbn [bind].
  rewrite extract_clean_data_contract. cbn [bind]. now eexists.
Qed.

(** X13: in both scripts an image gets a row exactly when it can be
    decoded, thresholded and read by OCR; field extraction itself never
    costs a row. *)
Theorem row_iff_readable (f : path) :
  ((exists parsed,
       process u imread binarize image_to_string basename
         Script.extract_data f = Ok parsed)
   <-> readable imread binarize image_to_string f)
  /\ ((exists parsed,
          process u imread binarize image_to_string basename
            Script2.extract_clean_data f = Ok parsed)
      <-> readable imread binarize image_to_string f).
Proof.
  split; split.
  - intros (row & H). now apply process_shape in H.
  - intros H. apply (readable_row u basename) in H as (row & H & _).
    now exists row.
  - intros (row & H). now apply process_shape in H.
  - apply readable_row2.
Qed.

Lemma in_table extract files row :
  In row (result_table u imread binarize image_to_string basename extract files) ->
  exists f,
    In f files
    /\ process u imread binarize image_to_string basename extract f = Ok row.
Proof.
  unfold result_table.
  rewrite (process_images_spec u imread binarize image_to_string basename
             extract files [] []).
  cbn [fst app]. intros H. apply in_flat_map in H as (f & Hf & H).
  exists f. split; [exact Hf|]. unfold rows_of in H.
  destruct (process u imread binarize image_to_string basename extract f);
    [|destruct H].
  destruct H as [->|[]]. reflexivity.
Qed.

(** X14: every row of either table has the declared keys in their order
    and [Image] last, so the frame built with the column list has a cell
    for every column: no key is ever missing. *)
Theorem table_schema (files : list path) :
  Forall (fun row => Script.keys row = declared_keys ++ ["Image"%string])
    (table1 files)
  /\ Forall (fun cells => forallb (@is_some (option text)) cells = true)
       (data_frame script_columns (table1 files))
  /\ Forall (fun row => Script.keys row = declared_keys2 ++ ["Image"%string])
       (table2 files)
  /\ Forall (fun cells => forallb (@is_some (option text)) cells = true)
       (data_frame script2_columns (table2 files)).
Proof.
  assert (H1 : forall row, In row (table1 files) ->
                 Script.keys row = declared_keys ++ ["Image"%string]
                 /\ forallb (@is_some (option text))
                      (map (fun c => Script.dict_get c row) script_columns)
                    = true).
  { intros row H. apply in_table in H as (f & _ & H).
    apply process_shape in H as (_ & raw & parsed & E & ->).
    rewrite extract_data_contract in E. injection E as <-.
    split; reflexivity. }
  assert (H2 : forall row, In row (table2 files) ->
                 Script.keys row = declared_keys2 ++ ["Image"%string]
                 /\ forallb (@is_some (option text))
                      (map (fun c => Script.dict_get c row) script2_columns)
                    = true).
  { intros row H. apply in_table in H as (f & _ & H).
    apply process_shape in H as (_ & raw & parsed & E & ->).
    rewrite extract_clean_data_contract in E. injection E as <-.
    split; reflexivity. }
  repeat split; apply Forall_forall.
  - intros row H. now apply H1.
  - intros cells H. unfold data_frame in H.
    apply in_map_iff in H as (row & <- & H). now apply H1.
  - intros row H. now apply H2.
  - intros cells H. unfold data_frame in H.
    apply in_map_iff in H as (row & <- & H). now apply H2.
Qed.

End MainLoop.

Section LoopLog.

Variable u : unicode_db.
Variables path image : Type.
Variable imread : path -> option image.
Variable binarize : image -> result image.
Variable image_to_string : image -> result text.
Variable basename : path -> text.
Variable extract : unicode_db -> text -> result Script.dict.

Local Abbreviation loop :=
  (process_images u imread binarize image_to_string basename extract).
Local Abbreviation rows :=
  (rows_of u imread binarize image_to_string basename extract).
Local Abbreviation lines :=
  (line_of u imread binarize image_to_string basename extract).

Lemma lines_files files : map (@line_file path) (map lines files) = files.
Proof.
  induction files as [|f files IH]; [reflexivity|]. cbn [map]. rewrite IH.
  f_equal. unfold line_of.
  now destruct (process u imread binarize image_to_string basename extract f).
Qed.

Lemma rows_and_errors files :
  length (flat_map rows files)
  + length (filter (@is_error path) (map lines files))
  = length files.
Proof.
  induction files as [|f files IH]; [reflexivity|].
  cbn [flat_map map filter]. rewrite length_app. unfold rows_of at 1, line_of at 1.
  destruct (process u imread binarize image_to_string basename extract f);
    cbn [is_error length]; lia.
Qed.

(** X15: the loop prints exactly one line per file, in the order of the
    files, and every file is accounted for: the rows of the table and the
    error lines together are as many as the files. *)
Theorem one_line_per_file (files : list path) :
  map (@line_file path) (snd (loop files [] [])) = files
  /\ length (fst (loop files [] []))
     + length (filter (@is_error path) (snd (loop files [] [])))
     = length files.
Proof.
  rewrite (process_images_spec u imread binarize image_to_string basename
             extract files [] []).
  cbn [fst snd app]. split; [apply lines_files|apply rows_and_errors].
Qed.

End LoopLog.

(** ** Sorting by file number *)

Section Sorting.

Variable u : unicode_db.
Variables path image : Type.
Variable imread : path -> option image.
Variable binarize : image -> result image.
Variable image_to_string : image -> result text.
Variable basename : path -> text.
Variable stem_number : path -> option Z.

Local Abbreviation key_le :=
  (fun a b : Z * path => (fst a <= fst b)%Z).

Lemma keyed_ok files kl :
  keyed stem_number files = Ok kl ->
  map snd kl = files
  /\ Forall (fun kf => stem_number (snd kf) = Some (fst kf)) kl.
Proof.
  revert kl. induction files as [|f files IH]; intros kl; cbn [keyed].
  - intros [= <-]. split; [reflexivity|constructor].
  - destruct (stem_number f) as [k|] eqn:Ek; [|discriminate].
    destruct (keyed stem_number files) as [kl'|]; [|discriminate].
    cbn [bind]. intros [= <-]. destruct (IH kl' eq_refl) as [Hm Hf].
    split; [cbn; now rewrite Hm|constructor; [exact Ek|exact Hf]].
Qed.

Lemma keyed_raises files :
  (exists f, In f files /\ stem_number f = None)
  <-> keyed stem_number files = Raise ValueError.
Proof.
  induction files as [|f files IH]; cbn [keyed].
  - split; [intros (f & [] & _)|discriminate].
  - destruct (stem_number f) as [k|] eqn:Ek.
    + destruct (keyed stem_number files) as [kl|e] eqn:E; cbn [bind].
      * split; [|discriminate]. intros (g & [<-|Hg] & Hn); [congruence|].
        apply proj1 in IH. discriminate IH. now exists g.
      * split.
        -- intros (g & [<-|Hg] & Hn); [congruence|].
           apply IH. now exists g.
        -- intros H. apply IH in H as (g & Hg & Hn). exists g.
           split; [now right|exact Hn].
    + split; [reflexivity|]. intros _. exists f. split; [now left|exact Ek].
Qed.

Lemma insert_keyed_perm (x : Z * path) l :
  Permutation (insert_keyed x l) (x :: l).
Proof.
  induction l as [|y l IH]; cbn [insert_keyed]; [reflexivity|].
  destruct (fst x <=? fst y)%Z; [reflexivity|].
  rewrite IH. apply perm_swap.
Qed.

Lemma insert_keyed_sorted (x : Z * path) l :
  StronglySorted key_le l -> StronglySorted key_le (insert_keyed x l).
Proof.
  induction l as [|y l IH]; intros Hs; cbn [insert_keyed].
  - repeat constructor.
  - destruct (Z.leb_spec (fst x) (fst y)) as [Hle|Hgt].
    + constructor; [exact Hs|]. inversion Hs as [|? ? _ Hall]; subst.
      constructor; [exact Hle|].
      revert Hall. apply Forall_impl. intros z Hz. cbn in *. lia.
    + inversion Hs as [|? ? Hs' Hall]; subst.
      constructor; [now apply IH|].
      eapply Permutation_Forall; [symmetry; apply insert_keyed_perm|].
      constructor; [cbn; lia|exact Hall].
Qed.

Lemma sort_keyed kl :
  Permutation (fold_right (@insert_keyed path) [] kl) kl
  /\ StronglySorted key_le (fold_right (@insert_keyed path) [] kl).
Proof.
  induction kl as [|x kl [IHp IHs]]; cbn [fold_right].
  - split; [reflexivity|constructor].
  - split; [rewrite insert_keyed_perm; now constructor|].
    now apply insert_keyed_sorted.
Qed.

Lemma sorted_by_stem_ok files sorted :
  sorted_by_stem stem_number files = Ok sorted ->
  Permutation sorted files /\ StronglySorted (stem_le stem_number) sorted.
Proof.
  unfold sorted_by_stem.
  destruct (keyed stem_number files) as [kl|] eqn:E; [|discriminate].
  cbn [bind]. intros [= <-]. apply keyed_ok in E as [Hm Hf].
  destruct (sort_keyed kl) as [Hp Hs]. split.
  - rewrite <- Hm. now apply Permutation_map.
  - assert (Hf' : Forall (fun kf => stem_number (snd kf) = Some (fst kf))
                    (fold_right (@insert_keyed path) [] kl)).
    { eapply Permutation_Forall; [symmetry; exact Hp|exact Hf]. }
    revert Hs Hf'. generalize (fold_right (@insert_keyed path) [] kl).
    intros l Hs. induction Hs as [|a l Hs IH Hall]; intros Hf'; cbn [map].
    + constructor.
    + inversion Hf' as [|? ? Ha Hl]; subst.
      constructor; [now apply IH|].
      apply Forall_map. rewrite Forall_forall in *. intros b Hb.
      exists (fst a), (fst b). repeat split; [exact Ha|now apply Hl|].
      now apply Hall.
Qed.

(** X16: script.py stops with [ValueError] before any image is processed
    exactly when some listed file has a stem that is not a number, image
    or not; no table is then produced. *)
Theorem non_numeric_name_aborts (globbed : list path) :
  (exists f, In f globbed /\ stem_number f = None)
  <-> script_main u imread binarize image_to_string basename stem_number
        globbed = Raise ValueError.
Proof.
  rewrite keyed_raises. unfold script_main, sorted_by_stem.
  destruct (keyed stem_number globbed) as [kl|e]; cbn [bind];
    split; intros H; first [discriminate H|now injection H as ->].
Qed.

(** X17: when script.py does produce a table, it has handled every
    listed file once, in ascending order of the file numbers (so 10
    comes after 2). *)
Theorem files_in_numeric_order (globbed : list path) frame out :
  script_main u imread binarize image_to_string basename stem_number globbed
  = Ok (frame, out) ->
  Permutation (map (@line_file path) out) globbed
  /\ StronglySorted (stem_le stem_number) (map (@line_file path) out).
Proof.
  unfold script_main.
  destruct (sorted_by_stem stem_number globbed) as [sorted|] eqn:E;
    [|discriminate]. cbn [bind]. intros [= _ <-].
  destruct (one_line_per_file u imread binarize image_to_string basename
              Script.extract_data sorted) as [Hl _].
  rewrite Hl. now apply sorted_by_stem_ok.
Qed.

End Sorting.

(** X17 at the files 10, 2 and 1. *)
Lemma files_in_numeric_order_example :
  Permutation [1; 2; 10] [10; 2; 1]
  /\ StronglySorted (stem_le number_stem) [1; 2; 10].
Proof.
  apply (@files_in_numeric_order plain_db nat text (fun _ => None)
           (fun i => Ok i) (fun i => Ok i) (fun _ => []) number_stem
           [10; 2; 1] []
           [ErrorProcessing 1 ValueError; ErrorProcessing 2 ValueError;
            ErrorProcessing 10 ValueError]).
  vm_compute. reflexivity.
Defined.

(** ** Absent means unmatched *)

Lemma first_match_none u cleanup key rules t :
  forallb (fun pat => ngroups pat <=? 1) rules = true ->
  Contract.first_match u cleanup key rules t = None
  <-> unrecognised u rules t.
Proof.
  unfold unrecognised. induction rules as [|pat rules IH]; cbn [forallb].
  - intros _. split; [constructor|reflexivity].
  - rewrite andb_true_iff. intros [Hn Hr]. apply Nat.leb_le in Hn.
    rewrite first_match_search by exact Hn. rewrite Forall_cons_iff.
    destruct (search u true pat t) as [m|].
    + split; [discriminate|]. intros [H _]. discriminate H.
    + rewrite (IH Hr). tauto.
Qed.

(** X18: with rules of at most one group, [find_first_match] returns
    [None] exactly when no rule matches anywhere in the text; a match
    that captures nothing gives the empty string, not [None]. *)
Theorem none_iff_unmatched (u : unicode_db) (t : text) (rules : list regex) :
  forallb (fun pat => ngroups pat <=? 1) rules = true ->
  Script.find_first_match u t rules = Ok None <-> unrecognised u rules t.
Proof.
  intros Hn. rewrite (find_first_match_ok u "" rules t Hn).
  rewrite <- (first_match_none u (Contract.shared_cleanup u) "" rules t Hn).
  split; [now intros [= ->]|now intros ->].
Qed.

(** X18 at the receiver rule and a text without its labels. *)
Lemma none_iff_unmatched_receiver :
  Script.find_first_match plain_db (of_string "Hello") Script.receiver_patterns
  = Ok None
  <-> unrecognised plain_db Script.receiver_patterns (of_string "Hello").
Proof. apply none_iff_unmatched. reflexivity. Defined.

(** ** The status phrases *)

Section Phrases.

Variable u : unicode_db.

Lemma lit_chars_trace (A : Type) l :
  forall s g (k : text -> captures -> option A) a,
    rx u true (lit_chars l) s g k = Some a ->
    exists pre s1,
      s = pre ++ s1 /\ k s1 g = Some a
      /\ map (lower u) pre = map (lower u) (map N_of_ascii l).
Proof.
  induction l as [|x l IH]; intros s g k a.
  - cbn. intros H. now exists [], s.
  - destruct l as [|y l].
    + cbn [lit_chars rx in_cset]. destruct s as [|c s]; [discriminate|].
      destruct (N.eqb_spec (lower u c) (lower u (N_of_ascii x))) as [E|_];
        [|discriminate].
      intros H. exists [c], s. repeat split; [exact H|]. cbn. now rewrite E.
    + change (lit_chars (x :: y :: l))
        with (Cat (Chr (CLit (N_of_ascii x))) (lit_chars (y :: l))).
      cbn [rx in_cset]. destruct s as [|c s]; [discriminate|].
      destruct (N.eqb_spec (lower u c) (lower u (N_of_ascii x))) as [E|_];
        [|discriminate].
      intros H. apply IH in H as (pre & s1 & -> & H & Hm).
      exists (c :: pre), s1. repeat split; [exact H|].
      cbn [map]. now rewrite E, Hm.
Qed.

Lemma alt_elim_some (A : Type) rs s g (k : text -> captures -> option A) a :
  rs <> [] -> rx u true (alt rs) s g k = Some a ->
  exists r, In r rs /\ rx u true r s g k = Some a.
Proof.
  induction rs as [|r rs IH]; [congruence|]. intros _.
  destruct rs as [|r' rs].
  - intros H. exists r. split; [now left|exact H].
  - change (alt (r :: r' :: rs)) with (Alt r (alt (r' :: rs))). cbn [rx].
    destruct (rx u true r s g k) eqn:E.
    + intros [= ->]. exists r. split; [now left|exact E].
    + intros H. destruct (IH ltac:(discriminate) H) as (q & Hin & Hq).
      exists q. split; [now right|exact Hq].
Qed.

(** A match of a group around alternative phrases holds one of the
    phrases, up to case. *)
Lemma phrase_group phrases adv s m :
  phrases <> [] ->
  match_at u true (Grp 1 (alt (map lit phrases))) adv s = Some m ->
  exists p pre,
    In p phrases /\ group 1 (snd m) = Some pre
    /\ map (lower u) pre = map (lower u) (of_string p).
Proof.
  intros Hne. unfold match_at. cbn [rx]. intros H.
  apply alt_elim_some in H as (r & Hin & H);
    [|destruct phrases; [congruence|discriminate]].
  apply in_map_iff in Hin as (p & <- & Hin).
  apply lit_chars_trace in H as (pre & s1 & -> & H & Hm).
  rewrite firstn_length_app in H.
  destruct (adv && (length s1 =? length (pre ++ s1))); [discriminate|].
  injection H as <-. exists p, pre. repeat split; [exact Hin|exact Hm].
Qed.

Lemma phrase_search phrases t m :
  phrases <> [] ->
  search u true (Grp 1 (alt (map lit phrases))) t = Some m ->
  exists p pre,
    In p phrases /\ group 1 (snd m) = Some pre
    /\ map (lower u) pre = map (lower u) (of_string p).
Proof.
  intros Hne. induction t as [|c t IH]; cbn [search].
  - destruct (match_at u true (Grp 1 (alt (map lit phrases))) false [])
      as [m0|] eqn:E; [|discriminate].
    intros [= <-]. now apply phrase_group in E.
  - destruct (match_at u true (Grp 1 (alt (map lit phrases))) false (c :: t))
      as [m0|] eqn:E; [|exact IH].
    intros [= <-]. now apply phrase_group in E.
Qed.

End Phrases.

Lemma edge_not_cased c : is_edge c = true -> ascii_lower c = c.
Proof.
  intros H. unfold ascii_lower, between.
  destruct (N.leb_spec 65 c) as [Hlo|]; [|reflexivity].
  destruct (N.leb_spec c 90) as [Hhi|]; [|reflexivity].
  exfalso.
  assert (Hall : forallb (fun x => negb (is_edge x))
                   (map N.of_nat (seq 65 26)) = true)
    by (vm_compute; reflexivity).
  rewrite forallb_forall in Hall. specialize (Hall c).
  rewrite H in Hall. apply Bool.diff_false_true, Hall.
  rewrite <- (N2Nat.id c). apply in_map, in_seq. lia.
Qed.

Lemma lower_seven_bit u (s : text) :
  seven_bit s -> map (lower u) s = map ascii_lower s.
Proof.
  induction 1 as [|c s Hc _ IH]; [reflexivity|]. cbn [map].
  unfold lower at 1. now rewrite Hc, IH.
Qed.

Lemma rstrip_fixed s : ends_outside is_space s = true -> rstrip s = s.
Proof.
  unfold ends_outside. induction s as [|c s IH]; [reflexivity|].
  cbn [rev rstrip]. destruct s as [|d s].
  - cbn. now destruct (is_space c).
  - intros H. rewrite IH.
    + reflexivity.
    + cbn [rev] in *. destruct (rev s ++ [d]) eqn:E; [|exact H].
      now destruct (rev s).
Qed.

Lemma first_line_fixed s : no_newline s -> first_line s = s.
Proof.
  unfold no_newline. induction s as [|c s IH]; intros Hn; simpl; [reflexivity|].
  destruct (N.eqb_spec c 10) as [->|_]; [exfalso; apply Hn; now left|].
  f_equal. apply IH. intros Hin. apply Hn. now right.
Qed.

Lemma ends_outside_forallb p s c :
  ends_outside p (c :: s) = true -> forallb p (c :: s) = false.
Proof.
  unfold ends_outside. intros H.
  destruct (rev (c :: s)) as [|d l] eqn:E.
  - apply (f_equal (@length char)) in E. rewrite length_rev in E. discriminate.
  - apply negb_true_iff in H.
    destruct (forallb p (c :: s)) eqn:F; [|reflexivity].
    rewrite forallb_forall in F. rewrite <- H. symmetry. apply F.
    apply in_rev. rewrite E. now left.
Qed.

Lemma drop_trailing_fixed p s : ends_outside p s = true -> drop_trailing p s = s.
Proof.
  induction s as [|c s IH]; [reflexivity|]. intros H. cbn [drop_trailing].
  rewrite (ends_outside_forallb p s c H). f_equal.
  destruct s as [|d s]; [reflexivity|]. apply IH.
  unfold ends_outside in *. cbn [rev] in *.
  destruct (rev s ++ [d]) eqn:E; [now destruct (rev s)|exact H].
Qed.

(** A text that starts and ends outside whitespace and the trim set, on
    one line, is left as it is by the clean-up. *)
Lemma shared_cleanup_fixed u key s :
  head_not_space s = true -> no_newline s ->
  ends_outside is_edge s = true ->
  Contract.shared_cleanup u key s = s.
Proof.
  intros Hh Hn He.
  assert (Hs : ends_outside is_space s = true).
  { unfold ends_outside, is_edge in *. destruct (rev s); [reflexivity|].
    apply negb_true_iff in He. apply orb_false_iff in He as [He _].
    now rewrite He. }
  assert (Hp : ends_outside is_trim_punct s = true).
  { unfold ends_outside, is_edge in *. destruct (rev s); [reflexivity|].
    apply negb_true_iff in He. apply orb_false_iff in He as [_ He].
    now rewrite He. }
  assert (E : strip s = s).
  { unfold strip. rewrite (lstrip_fixed s Hh). now apply rstrip_fixed. }
  rewrite shared_cleanup_eq, E, (first_line_fixed Hn), E.
  now apply drop_trailing_fixed.
Qed.

(** What holds of a text up to case holds of it at its edges. *)
Lemma same_letters_shape (v q : text) :
  map ascii_lower v = q ->
  head_not_space q = true -> forallb (fun c => negb (c =? 10)%N) q = true ->
  ends_outside is_edge q = true ->
  head_not_space v = true /\ no_newline v /\ ends_outside is_edge v = true.
Proof.
  intros <- Hh Hn He.
  assert (Hedge : forall c, is_edge (ascii_lower c) = false -> is_edge c = false).
  { intros c H. destruct (is_edge c) eqn:E; [|reflexivity].
    now rewrite (edge_not_cased c E), E in H. }
  repeat split.
  - destruct v as [|c v]; [reflexivity|]. cbn in *.
    apply negb_true_iff in Hh. apply negb_true_iff.
    destruct (is_space c) eqn:E; [|reflexivity].
    assert (Ee : is_edge c = true) by (unfold is_edge; now rewrite E).
    now rewrite (edge_not_cased c Ee), E in Hh.
  - intros Hin. rewrite forallb_forall in Hn.
    specialize (Hn (ascii_lower 10%N) (in_map ascii_lower v 10%N Hin)).
    discriminate Hn.
  - unfold ends_outside in *. rewrite <- map_rev in He.
    destruct (rev v) as [|c l]; [reflexivity|]. cbn [map] in He.
    apply negb_true_iff in He. apply negb_true_iff. now apply Hedge.
Qed.

(** X19: on 7-bit text, a [Transaction_Status] of [extract_data] is one
    of the phrases "transaction successful", "money has been sent" and
    "successfully sent" up to the case of its letters, and it is a part
    of the text as it stands there. *)
Theorem status_is_a_phrase (u : unicode_db) (t : text) (v : text) :
  seven_bit t ->
  field_of (Script.extract_data u t) "Transaction_Status" = Some (Some v) ->
  In (map ascii_lower v) status_phrases /\ infix v t.
Proof.
  intros H7. rewrite extract_data_contract. cbn [field_of].
  change (Script.dict_get "Transaction_Status"
            (Contract.extract u (Contract.shared_cleanup u) Script.falsy
               Contract.broad t))
    with (Some (Contract.first_match u (Contract.shared_cleanup u)
                  "Transaction_Status" Script.status_patterns t)).
  intros H.
  assert (H' : Contract.first_match u (Contract.shared_cleanup u)
                 "Transaction_Status" Script.status_patterns t = Some v)
    by (now injection H).
  clear H. apply first_match_source in H' as (pat & raw & Hin & Hraw & ->).
  destruct Hin as [<-|[]].
  pose proof (first_text_infix u _ t Hraw) as Hi.
  apply first_text_rule in Hraw as (m & Hs & ->).
  change (Grp 1
            (alt [ lit "Transaction Successful"; lit "Transaction successful";
                   lit "Money has been sent"; lit "Successfully Sent" ]))
    with (Grp 1 (alt (map lit [ "Transaction Successful"; "Transaction successful";
                                "Money has been sent"; "Successfully Sent" ]%string)))
    in Hs.
  apply phrase_search in Hs as (p & pre & Hp & Hg & Hm); [|discriminate].
  unfold rule_text, group_text in *. cbn [ngroups alt] in *.
  change (ngroups (Grp 1
            (alt [ lit "Transaction Successful"; lit "Transaction successful";
                   lit "Money has been sent"; lit "Successfully Sent" ])))
    with 1 in *.
  cbn iota in *. rewrite Hg in *.
  rewrite (lower_seven_bit u (seven_bit_infix Hi H7)) in Hm.
  assert (Hq : map (lower u) (of_string p) = map ascii_lower (of_string p)).
  { apply lower_seven_bit.
    destruct Hp as [<-|[<-|[<-|[<-|[]]]]]; repeat constructor. }
  rewrite Hq in Hm.
  assert (Hshape : head_not_space pre = true /\ no_newline pre
                   /\ ends_outside is_edge pre = true).
  { apply (@same_letters_shape pre _ Hm);
      destruct Hp as [<-|[<-|[<-|[<-|[]]]]]; vm_compute; reflexivity. }
  destruct Hshape as (Hh & Hn & He).
  rewrite (shared_cleanup_fixed u _ Hh Hn He). split; [|exact Hi].
  rewrite Hm. unfold status_phrases.
  destruct Hp as [<-|[<-|[<-|[<-|[]]]]]; vm_compute; tauto.
Qed.

(** X19 at the worked example. *)
Lemma status_is_a_phrase_example :
  In (map ascii_lower (of_string "Transaction Successful")) status_phrases
  /\ infix (of_string "Transaction Successful") example_receipt.
Proof.
  apply (@status_is_a_phrase plain_db example_receipt).
  - repeat constructor.
  - vm_compute. reflexivity.
Defined.
